(** * Stock correlation analytics: src/utils/calculations.ts

    A shallow embedding of the scalar statistics, the Pearson correlation,
    the union-mode aligner [alignStockData] and the correlation engine
    [calculateCorrelationMatrix], followed by the properties of the
    specification that concern them.

    JavaScript numbers are IEEE-754 binary64 values, modelled by Rocq's
    primitive [float] (same format, same round-to-nearest-even [+], [-],
    [*], [/] and [sqrt]).  All NaN values are one value [nan], as in
    JavaScript.  Strings are [string], compared code unit by code unit
    (timestamps and tickers are ASCII); a [Record<string, T>] is an
    association list kept in key order, a [Set<string>] a duplicate-free
    list kept in insertion order.  Values have their declared TypeScript
    types, so the [typeof] and [Array.isArray] tests of the source always
    succeed and only the [isFinite] and length tests remain. *)

From Stdlib Require Import String.
From Stdlib Require Import Floats ZArith List Bool Lia Arith.
From Stdlib Require Import Sorted Permutation.
From Stdlib Require Uint63 OrderedTypeEx.
Import ListNotations.

Set Implicit Arguments.

(* ================================================================= *)
(** ** JavaScript primitives used by the module *)

Module JS.

Open Scope float_scope.

(** [isFinite(x)] for a value of type [number]. *)
Definition isFinite (x : float) : bool := is_finite x.

(** An array length used as a number ([arr.length] in an arithmetic
    expression).  Lengths are below 2^32, so the conversion is exact. *)
Definition of_length (n : nat) : float :=
  of_uint63 (Uint63.of_Z (Z.of_nat n)).

(** [a === b] on numbers: false on NaN, true on zeros of either sign. *)
Definition strict_eq (a b : float) : bool := (a =? b).

(** [Math.min(a, b)] and [Math.max(a, b)]: NaN if either argument is
    NaN, and -0 counts as smaller than +0. *)
Definition Math_min (a b : float) : float :=
  if is_nan a || is_nan b then nan
  else if a <? b then a
  else if b <? a then b
  else if get_sign a then a else b.

Definition Math_max (a b : float) : float :=
  if is_nan a || is_nan b then nan
  else if b <? a then a
  else if a <? b then b
  else if get_sign a then b else a.

Definition Math_sqrt (x : float) : float := PrimFloat.sqrt x.

(** [Math.pow(d, 2)], taken as the correctly rounded square of [d]; on
    NaN, infinities and zeros this is what ECMAScript prescribes. *)
Definition Math_pow2 (d : float) : float := d * d.

(** *** Records (objects used as maps), in key order *)

Section Records.
Variable V : Type.

Definition record := list (string * V).

Definition keys (r : record) : list string := map fst r.

(** [r[k]]; [None] stands for [undefined].  JavaScript looks a key that
    is not an own key up in [Object.prototype], where it finds the names
    of [inherited] below: a read at such a name, when it is not an own
    key, is outside this model.  The functions of calculations.ts read
    records at keys taken from [Object.keys] only. *)
Fixpoint get (r : record) (k : string) : option V :=
  match r with
  | [] => None
  | (k', v) :: r' => if String.eqb k' k then Some v else get r' k
  end.

(** [r[k] = v]: overwrite in place, or add the key at the end.  This is
    the assignment for every key but [__proto__]: on an object made by
    [{}] the assignment [r['__proto__'] = v] creates no key (an array
    [v] becomes the prototype of [r], where [r['__proto__']] finds it
    again, and a number is dropped).  The list keeps the pair, which is
    what a later read by key finds for an array; the properties about
    the keys of a record handed to the caller leave [__proto__] aside
    (see [plainKey]). *)
Fixpoint set (r : record) (k : string) (v : V) : record :=
  match r with
  | [] => [(k, v)]
  | (k', v') :: r' =>
      if String.eqb k' k then (k', v) :: r' else (k', v') :: set r' k v
  end.

(** [r[k].push(..)] and the like: the array stored under [k] is
    changed in place by [f].  (On an absent key JavaScript would
    throw; the module only does this to a key it has just assigned.) *)
Fixpoint update (r : record) (k : string) (f : V -> V) : record :=
  match r with
  | [] => []
  | (k', v') :: r' =>
      if String.eqb k' k then (k', f v') :: r' else (k', v') :: update r' k f
  end.

(** [delete r[k]]. *)
Fixpoint delete (r : record) (k : string) : record :=
  match r with
  | [] => []
  | (k', v') :: r' =>
      if String.eqb k' k then r' else (k', v') :: delete r' k
  end.
End Records.

(** The names that every object inherits from [Object.prototype]: read
    at one of them, an object that has no such own key gives the
    inherited function or object, not [undefined]. *)
Definition inherited : list string :=
  ["constructor"; "__defineGetter__"; "__defineSetter__"; "hasOwnProperty";
   "__lookupGetter__"; "__lookupSetter__"; "isPrototypeOf";
   "propertyIsEnumerable"; "toString"; "valueOf"; "__proto__";
   "toLocaleString"]%string.

(** *** [Set<string>]: insertion order, no duplicates *)

Definition set_has (s : list string) (x : string) : bool :=
  existsb (String.eqb x) s.

Definition set_add (s : list string) (x : string) : list string :=
  if set_has s x then s else s ++ [x].

(** *** [Array.prototype.sort()] on strings: ascending code-unit order.
    The elements sorted by the module come out of a [Set], so they are
    pairwise distinct and the sorted array does not depend on the
    algorithm; insertion sort is used here. *)

Fixpoint sort_insert (x : string) (l : list string) : list string :=
  match l with
  | [] => [x]
  | y :: l' => if String.leb x y then x :: l else y :: sort_insert x l'
  end.

Fixpoint sort (l : list string) : list string :=
  match l with
  | [] => []
  | x :: l' => sort_insert x (sort l')
  end.

End JS.

Unset Implicit Arguments.

Open Scope float_scope.

(* ================================================================= *)
(** ** Data model (src/types/index.ts) *)

Record StockPrice := mkStockPrice { timestamp : string; price : float }.

(** [Record<string, StockPrice[]>], listed in [Object.keys] order. *)
Definition StockData := JS.record (list StockPrice).

Record CorrelationMatrix := mkCorrelationMatrix {
  matrix : list (list float);
  standardDeviations : JS.record float;
  dataPoints : nat
}.

(* ================================================================= *)
(** ** Scalar statistics *)

(** The cleaning filter [num => typeof num === 'number' && isFinite(num)];
    an element of a [number[]] always has type number. *)
Definition validNumber (num : float) : bool := JS.isFinite num.

(** [validNumbers.reduce((acc, num) => acc + num, 0)] *)
Definition reduce_sum (l : list float) : float :=
  fold_left (fun acc num => acc + num) l 0.

Definition calculateAverage (numbers : list float) : float :=
  if Nat.eqb (length numbers) 0 then 0 else
  let validNumbers := filter validNumber numbers in
  if Nat.eqb (length validNumbers) 0 then 0 else
  let sum := reduce_sum validNumbers in
  sum / JS.of_length (length validNumbers).

Definition calculateStandardDeviation (numbers : list float) : float :=
  if Nat.eqb (length numbers) 0 then 0 else
  let validNumbers := filter validNumber numbers in
  if Nat.eqb (length validNumbers) 0 then 0 else
  let mean := calculateAverage validNumbers in
  let squaredDifferences := map (fun num => JS.Math_pow2 (num - mean)) validNumbers in
  let variance := calculateAverage squaredDifferences in
  JS.Math_sqrt variance.

(* ================================================================= *)
(** ** Pearson correlation *)

(** The first loop: the index pairs whose two elements are finite
    numbers.  It runs only when both arrays have the same length, so
    position [i] of [combine x y] is [(x[i], y[i])]. *)
Definition validPair (p : float * float) : bool :=
  JS.isFinite (fst p) && JS.isFinite (snd p).

Definition validPairs (x y : list float) : list (float * float) :=
  filter validPair (combine x y).

(** The three accumulators of the second loop. *)
Record sums := mkSums {
  numerator : float;
  sumSquaredX : float;
  sumSquaredY : float
}.

Definition sums_step (meanX meanY : float) (s : sums) (p : float * float) : sums :=
  let diffX := fst p - meanX in
  let diffY := snd p - meanY in
  mkSums (numerator s + diffX * diffY)
         (sumSquaredX s + diffX * diffX)
         (sumSquaredY s + diffY * diffY).

Definition sums_loop (meanX meanY : float) (validX validY : list float) : sums :=
  fold_left (sums_step meanX meanY) (combine validX validY) (mkSums 0 0 0).

(** [Math.max(-1, Math.min(1, correlation))] *)
Definition clamp (correlation : float) : float :=
  JS.Math_max (-1) (JS.Math_min 1 correlation).

Definition calculatePearsonCorrelation (x y : list float) : float :=
  if negb (Nat.eqb (length x) (length y)) || Nat.eqb (length x) 0 then 0 else
  let pairs := validPairs x y in
  if Nat.ltb (length pairs) 2 then 0 else
  let validX := map fst pairs in
  let validY := map snd pairs in
  let meanX := calculateAverage validX in
  let meanY := calculateAverage validY in
  let s := sums_loop meanX meanY validX validY in
  let denominator := JS.Math_sqrt (sumSquaredX s * sumSquaredY s) in
  if JS.strict_eq denominator 0 then 0 else
  let correlation := numerator s / denominator in
  clamp correlation.

(* ================================================================= *)
(** ** Time-series aligner, union mode *)

(** The loop filling the [Set] of timestamps.  [stocksData[ticker]?.forEach]
    skips a missing series; in [calculateCorrelationMatrix] the same loop
    carries the guards [Array.isArray(data[ticker])], [point] and
    [typeof point.timestamp === 'string'], which hold for every value of
    the declared type. *)
Definition collectTimestamps (data : StockData) (tickers : list string) : list string :=
  fold_left
    (fun allTimestamps ticker =>
       match JS.get data ticker with
       | Some points =>
           fold_left (fun s point => JS.set_add s (timestamp point)) points allTimestamps
       | None => allTimestamps
       end)
    tickers [].

(** [stockData.find(point => point.timestamp === timestamp)] *)
Definition findPoint (stockData : list StockPrice) (ts : string) : option StockPrice :=
  find (fun point => String.eqb (timestamp point) ts) stockData.

(** [stocksData[ticker] || []] *)
Definition seriesOf (stocksData : StockData) (ticker : string) : list StockPrice :=
  match JS.get stocksData ticker with Some a => a | None => [] end.

(** The body of [tickers.forEach] that fills [alignedData[ticker]]. *)
Definition alignTicker (stocksData : StockData) (sortedTimestamps : list string)
    (alignedData : JS.record (list float)) (ticker : string) : JS.record (list float) :=
  let alignedData := JS.set alignedData ticker [] in
  let stockData := seriesOf stocksData ticker in
  fold_left
    (fun alignedData ts =>
       match findPoint stockData ts with
       | Some dataPoint =>
           JS.update alignedData ticker (fun v => v ++ [price dataPoint])
       | None => alignedData
       end)
    sortedTimestamps alignedData.

(** The body of the last [forEach]: drop a ticker with fewer than 2 entries. *)
Definition dropShort (alignedData : JS.record (list float)) (ticker : string)
    : JS.record (list float) :=
  match JS.get alignedData ticker with
  | Some v => if Nat.ltb (length v) 2 then JS.delete alignedData ticker else alignedData
  | None => alignedData
  end.

Definition alignStockData (stocksData : StockData) : JS.record (list float) :=
  let tickers := JS.keys stocksData in
  if Nat.eqb (length tickers) 0 then [] else
  let allTimestamps := collectTimestamps stocksData tickers in
  let sortedTimestamps := JS.sort allTimestamps in
  let alignedData := fold_left (alignTicker stocksData sortedTimestamps) tickers [] in
  fold_left dropShort (JS.keys alignedData) alignedData.

(* ================================================================= *)
(** ** Correlation engine (intersection mode) *)

Definition emptyResult : CorrelationMatrix := mkCorrelationMatrix [] [] 0.

(** [data[ticker].some(point => point && point.timestamp === timestamp &&
    typeof point.price === 'number' && isFinite(point.price))] *)
Definition hasFinitePoint (points : list StockPrice) (ts : string) : bool :=
  existsb (fun point => String.eqb (timestamp point) ts && JS.isFinite (price point))
          points.

(** [tickers.every(ticker => data[ticker] && data[ticker].some(..))] *)
Definition isCommon (data : StockData) (tickers : list string) (ts : string) : bool :=
  forallb
    (fun ticker =>
       match JS.get data ticker with
       | Some points => hasFinitePoint points ts
       | None => false
       end)
    tickers.

Definition commonTimestampsOf (data : StockData) (tickers : list string) : list string :=
  JS.sort (filter (isCommon data tickers) (collectTimestamps data tickers)).

(** [commonTimestamps.map(timestamp => { const point = points.find(..);
    return point ? point.price : 0 }).filter(price => .. isFinite(price))] *)
Definition lookupPrice (points : list StockPrice) (ts : string) : float :=
  match findPoint points ts with
  | Some point => price point
  | None => 0
  end.

Definition alignedPrices (points : list StockPrice) (commonTimestamps : list string)
    : list float :=
  filter validNumber (map (lookupPrice points) commonTimestamps).

(** The loop building [alignedData].  [data[ticker].find] is not guarded:
    on a missing series it throws a TypeError, modelled by [None]. *)
Definition buildAligned (data : StockData) (commonTimestamps tickers : list string)
    : option (JS.record (list float)) :=
  fold_left
    (fun acc ticker =>
       match acc, JS.get data ticker with
       | Some alignedData, Some points =>
           Some (JS.set alignedData ticker (alignedPrices points commonTimestamps))
       | _, _ => None
       end)
    tickers (Some []).

(** An array argument read from a record.  A missing key gives [undefined],
    on which [calculateStandardDeviation] and [calculatePearsonCorrelation]
    return 0 through their [Array.isArray] guard, exactly as they do on the
    empty array through the length guard next to it. *)
Definition arrayOf (a : option (list float)) : list float :=
  match a with Some v => v | None => [] end.

Definition buildDeviations (alignedData : JS.record (list float)) (tickers : list string)
    : JS.record float :=
  fold_left
    (fun standardDeviations ticker =>
       JS.set standardDeviations ticker
         (calculateStandardDeviation (arrayOf (JS.get alignedData ticker))))
    tickers [].

(** [matrix[i][j]] as the nested loops assign it. *)
Definition matrixEntry (alignedData : JS.record (list float)) (tickers : list string)
    (i j : nat) : float :=
  if Nat.eqb i j then 1
  else calculatePearsonCorrelation
         (arrayOf (JS.get alignedData (nth i tickers EmptyString)))
         (arrayOf (JS.get alignedData (nth j tickers EmptyString))).

Definition buildMatrix (alignedData : JS.record (list float)) (tickers : list string)
    : list (list float) :=
  let n := length tickers in
  map (fun i => map (fun j => matrixEntry alignedData tickers i j) (seq 0 n)) (seq 0 n).

(** [None] is an uncaught exception. *)
Definition calculateCorrelationMatrix (data : StockData) : option CorrelationMatrix :=
  let tickers := JS.keys data in
  if Nat.eqb (length tickers) 0 then Some emptyResult else
  let commonTimestamps := commonTimestampsOf data tickers in
  if Nat.ltb (length commonTimestamps) 2 then Some emptyResult else
  match buildAligned data commonTimestamps tickers with
  | None => None
  | Some alignedData =>
      Some (mkCorrelationMatrix
              (buildMatrix alignedData tickers)
              (buildDeviations alignedData tickers)
              (length commonTimestamps))
  end.

(** [matrix[i][j]] read back from a result; [None] when out of range. *)
Definition entry (m : list (list float)) (i j : nat) : option float :=
  match nth_error m i with
  | Some row => nth_error row j
  | None => None
  end.

(* ================================================================= *)
(** ** Notions used to state the properties *)

(** An object has each key once. *)
Definition wellFormed (data : StockData) : Prop := NoDup (JS.keys data).

(** Some ticker of [tickers] has a point stamped [ts]. *)
Definition seenAt (data : StockData) (tickers : list string) (ts : string) : Prop :=
  exists ticker points p,
    In ticker tickers /\ JS.get data ticker = Some points /\
    In p points /\ timestamp p = ts.

(** Ascending code-unit order: every element is below all later ones. *)
Definition ascending : list string -> Prop :=
  StronglySorted (fun a b => String.leb a b = true).

(** The series [points] has a point stamped [ts] whose price is finite. *)
Definition finiteAt (points : list StockPrice) (ts : string) : Prop :=
  exists p, In p points /\ timestamp p = ts /\ JS.isFinite (price p) = true.

(** [ts] is a common timestamp of [data]: every ticker of the mapping has
    a point stamped [ts] with a finite price. *)
Definition commonAt (data : StockData) (ts : string) : Prop :=
  forall ticker, In ticker (JS.keys data) ->
    exists points, JS.get data ticker = Some points /\ finiteAt points ts.

(** Tickers [a] and [b] have no timestamp in common. *)
Definition disjointTimestamps (data : StockData) (a b : string) : Prop :=
  forall pa pb p q,
    JS.get data a = Some pa -> JS.get data b = Some pb ->
    In p pa -> In q pb -> timestamp p <> timestamp q.

(** What the specification expects when [bad] alone overlaps with nobody:
    [bad] alone is missing from the result, and [dataPoints] counts the
    timestamps common to the other tickers. *)
Definition onlyMissing (data : StockData) (bad : string) (r : CorrelationMatrix) : Prop :=
  (forall t, In t (JS.keys (standardDeviations r)) <->
             In t (JS.keys data) /\ t <> bad) /\
  length (matrix r) = (length (JS.keys data) - 1)%nat /\
  dataPoints r =
    length (commonTimestampsOf (JS.delete data bad) (JS.keys (JS.delete data bad))).

(** The mean of [l] dividing by its number of elements. *)
Definition meanOverN (l : list float) : float :=
  reduce_sum l / JS.of_length (length l).

(** The population standard deviation of a cleaned sequence as the
    specification words it, [sqrt(mean((x - mean(x))^2))], both means
    dividing by the number N of cleaned values. *)
Definition populationDeviation (cleaned : list float) : float :=
  let mean := meanOverN cleaned in
  JS.Math_sqrt (meanOverN (map (fun x => JS.Math_pow2 (x - mean)) cleaned)).

Definition standardDeviation_spec (values : list float) : float :=
  match filter validNumber values with
  | [] => 0
  | cleaned => populationDeviation cleaned
  end.

(** A key other than [__proto__], and an entry under such a key. *)
Definition plainKey (k : string) : bool := negb (String.eqb k "__proto__").

Definition plainEntry {V : Type} (kv : string * V) : bool := plainKey (fst kv).

(** The prices of the points of a series that are stamped [ts], in the
    order of the series. *)
Definition pricesAt (points : list StockPrice) (ts : string) : list float :=
  map price (filter (fun p => String.eqb (timestamp p) ts) points).

(** The vector of one ticker as the specification words it: go through
    the union of timestamps in order and, when the ticker has a point at
    that exact timestamp, append its price (of the first such point when
    there are several); a timestamp without a point appends nothing. *)
Definition unionVector (points : list StockPrice) (union : list string) : list float :=
  flat_map
    (fun ts =>
       match pricesAt points ts with
       | [] => []
       | first :: _ => [first]
       end)
    union.

(** The same scan written with the lookup of the source. *)
Definition scanUnion (points : list StockPrice) (union : list string) : list float :=
  flat_map
    (fun ts =>
       match findPoint points ts with
       | Some p => [price p]
       | None => []
       end)
    union.

(** The test of the last loop, seen from the side of what is kept. *)
Definition longEnough (kv : string * list float) : bool :=
  Nat.leb 2 (length (snd kv)).

(** Exchange of the two arrays, for the symmetry of the correlation. *)
Definition swap (p : float * float) : float * float := (snd p, fst p).

Definition swap_sums (s : sums) : sums :=
  mkSums (numerator s) (sumSquaredY s) (sumSquaredX s).

(* ================================================================= *)
(** ** Sample inputs *)

Definition pt (ts : string) (p : float) : StockPrice := mkStockPrice ts p.

(** The two-ticker scenario of the specification (GOOGL = 2 x AAPL). *)
Definition scenario : StockData :=
  [("AAPL", [pt "t1" 100; pt "t2" 102; pt "t3" 101]);
   ("GOOGL", [pt "t3" 202; pt "t1" 200; pt "t2" 204])]%string.

(** Three tickers; C shares no timestamp with A or B. *)
Definition gapped : StockData :=
  [("A", [pt "t1" 100; pt "t2" 102; pt "t3" 101]);
   ("B", [pt "t3" 202; pt "t1" 200; pt "t2" 204]);
   ("C", [pt "t8" 1; pt "t9" 2])]%string.

(** Three finite values; the squared deviation of the first one overflows. *)
Definition overflowing : list float := [0x1.8p512; 0; 0].

(** Two finite values whose squared deviations overflow. *)
Definition huge : list float := [0x1p700; -0x1p700].

(** One series with a NaN price. *)
Definition withNaN : StockData :=
  [("A", [pt "t1" nan; pt "t2" 1; pt "t3" infinity])]%string.

(** Ticker A has two points stamped t1; the first has a NaN price. *)
Definition duplicated : StockData :=
  [("A", [pt "t1" nan; pt "t1" 5; pt "t2" 6]);
   ("B", [pt "t1" 1; pt "t2" 2])]%string.

(* ================================================================= *)
(** ** Percentage change (utils/calculations.ts) *)

Definition calculatePercentageChange (current previous : float) : float :=
  if negb (JS.isFinite current) || negb (JS.isFinite previous)
     || JS.strict_eq previous 0
  then 0
  else ((current - previous) / previous) * 100.

(* ================================================================= *)
(** ** Chart preparation (components/MobileOptimizedChart.tsx) *)

(** [isMobile ? 20 : isTablet ? 40 : 100] *)
Definition maxDataPoints (isMobile isTablet : bool) : nat :=
  if isMobile then 20 else if isTablet then 40 else 100.

(** [Math.max(1, Math.floor(length / maxDataPoints))]; both operands are
    array lengths and small constants, on which the floor of the binary64
    quotient is the integer quotient. *)
Definition samplingStep (len maxPoints : nat) : nat :=
  Nat.max 1 (len / maxPoints).

(** [arr.filter((_, index) => keep(index))], the index starting at [i]. *)
Fixpoint filter_index {A : Type} (keep : nat -> bool) (i : nat) (l : list A) : list A :=
  match l with
  | [] => []
  | x :: l' =>
      if keep i then x :: filter_index keep (S i) l'
      else filter_index keep (S i) l'
  end.

(** [sortedTimestamps.filter((_, index) => index % step === 0)] *)
Definition everyNth (step : nat) (l : list string) : list string :=
  filter_index (fun index => Nat.eqb (index mod step) 0) 0 l.

(** The timestamps plotted by the chart: the sorted union of the selected
    tickers' timestamps, thinned out by the sampling step. *)
Definition filteredTimestamps (data : StockData) (selectedStocks : list string)
    (isMobile isTablet : bool) : list string :=
  let sortedTimestamps := JS.sort (collectTimestamps data selectedStocks) in
  let step := samplingStep (length sortedTimestamps) (maxDataPoints isMobile isTablet) in
  everyNth step sortedTimestamps.

(** The [averages] memo: one reference value per selected ticker that has
    a series.  (A selected name that [data] has only by inheritance makes
    [data[ticker].map] throw in the source; [None] is the [undefined]
    read at any other absent key.) *)
Definition averages (data : StockData) (selectedStocks : list string) : JS.record float :=
  fold_left
    (fun avgs ticker =>
       match JS.get data ticker with
       | Some points => JS.set avgs ticker (calculateAverage (map price points))
       | None => avgs
       end)
    selectedStocks [].

(** The helper that the stand-alone StockChart variant declares for
    itself: no cleaning of the input. *)
Definition localAverage (numbers : list float) : float :=
  if Nat.eqb (length numbers) 0 then 0
  else reduce_sum numbers / JS.of_length (length numbers).

(* ================================================================= *)
(** ** Further notions used to state the properties *)

(** The distinct timestamps of a series, in order of first occurrence. *)
Definition distinctTimestamps (points : list StockPrice) : list string :=
  nodup string_dec (map timestamp points).

(** What [calculatePearsonCorrelation] computes from the valid pairs. *)
Definition pearsonOfPairs (pairs : list (float * float)) : float :=
  if Nat.ltb (length pairs) 2 then 0 else
  let validX := map fst pairs in
  let validY := map snd pairs in
  let s := sums_loop (calculateAverage validX) (calculateAverage validY) validX validY in
  let denominator := JS.Math_sqrt (sumSquaredX s * sumSquaredY s) in
  if JS.strict_eq denominator 0 then 0 else clamp (numerator s / denominator).

(** The sum of the terms, added from left to right starting from 0. *)
Definition sigma (terms : list float) : float :=
  fold_left (fun acc term => acc + term) terms 0.

(** Pearson's formula on a list of pairs, as the specification writes
    it: the sum of the products of the deviations, over the square root
    of the product of the two sums of squared deviations; the deviations
    are taken from the means dividing by the number of pairs. *)
Definition productSum (pairs : list (float * float)) : float :=
  let meanX := meanOverN (map fst pairs) in
  let meanY := meanOverN (map snd pairs) in
  sigma (map (fun p => (fst p - meanX) * (snd p - meanY)) pairs).

Definition squareSumX (pairs : list (float * float)) : float :=
  let meanX := meanOverN (map fst pairs) in
  sigma (map (fun p => (fst p - meanX) * (fst p - meanX)) pairs).

Definition squareSumY (pairs : list (float * float)) : float :=
  let meanY := meanOverN (map snd pairs) in
  sigma (map (fun p => (snd p - meanY) * (snd p - meanY)) pairs).

Definition pearsonFormula (pairs : list (float * float)) : float :=
  productSum pairs / JS.Math_sqrt (squareSumX pairs * squareSumY pairs).

(** A value of [-1, 1], or NaN. *)
Definition unitOrNaN (v : float) : Prop :=
  v = nan \/ ((-1 <=? v) = true /\ (v <=? 1) = true).

(** The series has a point stamped [ts]. *)
Definition stampedAt (points : list StockPrice) (ts : string) : bool :=
  existsb (fun point => String.eqb (timestamp point) ts) points.

(** Classes of binary64 values, on their specification: a value with
    sign [s], a value that is not NaN, a finite value, a finite non-zero
    value, and a value that is zero, positive or +Infinity. *)
Definition signedSF (s : bool) (x : spec_float) : Prop :=
  match x with
  | S754_zero s' | S754_infinity s' | S754_finite s' _ _ => s' = s
  | S754_nan => False
  end.

Definition realSF (x : spec_float) : Prop :=
  match x with S754_nan => False | _ => True end.

Definition finiteSF (x : spec_float) : Prop :=
  match x with S754_zero _ | S754_finite _ _ _ => True | _ => False end.

Definition properSF (x : spec_float) : Prop :=
  match x with S754_finite _ _ _ => True | _ => False end.

Definition nonnegSF (x : spec_float) : Prop :=
  match x with
  | S754_zero _ | S754_infinity false | S754_finite false _ _ => True
  | _ => False
  end.

(** Arrays have fewer than 2^32 elements. *)
Definition arrayLength (n : nat) : Prop := (Z.of_nat n < 2 ^ 32)%Z.

(** Closes [NoDup] goals (and [wellFormed] ones) on explicit lists of strings. *)
Ltac distinct_strings :=
  unfold wellFormed; cbn;
  repeat (constructor; [cbn; intuition discriminate|]); constructor.

(* ================================================================= *)
(** ** Binary64 facts *)

Lemma float_mul_comm (a b : float) : a * b = b * a.
Proof.
  apply Prim2SF_inj. rewrite !mul_spec.
  unfold SF64mul, SpecFloat.SFmul.
  destruct (Prim2SF a) as [sa|sa| |sa ma ea], (Prim2SF b) as [sb|sb| |sb mb eb];
    try reflexivity; try (now rewrite xorb_comm).
  now rewrite xorb_comm, Pos.mul_comm, Z.add_comm.
Qed.

(* ================================================================= *)
(** ** Pearson correlation: guards and symmetry *)

(** C10: arrays of different lengths, or an empty array on either side,
    give 0 (the first guard of [calculatePearsonCorrelation] returns
    before anything is computed; nothing is thrown). *)
Theorem pearson_length_guard (x y : list float) :
  length x <> length y \/ x = [] \/ y = [] ->
  calculatePearsonCorrelation x y = 0.
Proof.
  intros H. unfold calculatePearsonCorrelation.
  destruct (Nat.eqb (length x) (length y)) eqn:E; [|reflexivity].
  apply Nat.eqb_eq in E. cbn [negb orb].
  destruct H as [H | [-> | ->]].
  - contradiction.
  - reflexivity.
  - cbn in E. rewrite E. reflexivity.
Qed.

Lemma pearson_length_guard_witness :
  calculatePearsonCorrelation [1; 2] [1] = 0 /\
  calculatePearsonCorrelation [] [1; 2] = 0 /\
  calculatePearsonCorrelation [1; 2] [] = 0.
Proof.
  split; [|split].
  - apply (pearson_length_guard [1; 2] [1]). left. simpl. lia.
  - apply (pearson_length_guard [] [1; 2]). right. left. reflexivity.
  - apply (pearson_length_guard [1; 2] []). right. right. reflexivity.
Defined.

Lemma combine_swap (x y : list float) :
  combine y x = map swap (combine x y).
Proof.
  revert y. induction x as [|a x IH]; intros [|b y]; cbn; try reflexivity.
  now rewrite IH.
Qed.

Lemma validPair_swap (p : float * float) : validPair (swap p) = validPair p.
Proof. destruct p as [a b]. unfold validPair. cbn. apply andb_comm. Qed.

Lemma validPairs_swap (x y : list float) :
  validPairs y x = map swap (validPairs x y).
Proof.
  unfold validPairs. rewrite combine_swap.
  induction (combine x y) as [|p l IH]; cbn [map filter]; [reflexivity|].
  rewrite validPair_swap, IH. now destruct (validPair p).
Qed.

Lemma sums_loop_swap (mx my : float) (pairs : list (float * float)) :
  sums_loop my mx (map fst (map swap pairs)) (map snd (map swap pairs)) =
  swap_sums (sums_loop mx my (map fst pairs) (map snd pairs)).
Proof.
  unfold sums_loop.
  change (mkSums 0 0 0) with (swap_sums (mkSums 0 0 0)) at 1.
  generalize (mkSums 0 0 0).
  induction pairs as [|[a b] l IH]; intros s; cbn [map combine fold_left].
  - reflexivity.
  - rewrite <- IH. f_equal.
    unfold sums_step, swap_sums; cbn.
    now rewrite (float_mul_comm (b - my) (a - mx)).
Qed.

Lemma pearson_symmetric (x y : list float) :
  calculatePearsonCorrelation x y = calculatePearsonCorrelation y x.
Proof.
  unfold calculatePearsonCorrelation.
  rewrite (Nat.eqb_sym (length y) (length x)).
  destruct (Nat.eqb (length x) (length y)) eqn:E; [|reflexivity].
  apply Nat.eqb_eq in E. rewrite <- E. cbn [negb orb].
  destruct (Nat.eqb (length x) 0); [reflexivity|].
  rewrite (validPairs_swap x y), length_map.
  destruct (Nat.ltb (length (validPairs x y)) 2); [reflexivity|].
  rewrite sums_loop_swap.
  replace (map fst (map swap (validPairs x y))) with (map snd (validPairs x y))
    by (rewrite map_map; reflexivity).
  replace (map snd (map swap (validPairs x y))) with (map fst (validPairs x y))
    by (rewrite map_map; reflexivity).
  cbn [swap_sums sumSquaredX sumSquaredY numerator].
  set (s := sums_loop _ _ _ _).
  now rewrite (float_mul_comm (sumSquaredY s) (sumSquaredX s)).
Qed.

(* ================================================================= *)
(** ** Records *)

Section RecordFacts.
Context {V : Type}.
Implicit Types (r : JS.record V) (k : string) (v : V).

Lemma get_of_key r k : In k (JS.keys r) -> exists v, JS.get r k = Some v.
Proof.
  induction r as [|[k' v'] r IH]; cbn; [easy|].
  intros [-> | H].
  - rewrite String.eqb_refl. eauto.
  - destruct (String.eqb k' k); eauto.
Qed.

Lemma get_In r k v : JS.get r k = Some v -> In (k, v) r.
Proof.
  induction r as [|[k' v'] r IH]; cbn; [easy|].
  destruct (String.eqb_spec k' k) as [->|].
  - intros [= ->]. now left.
  - intros H. right. auto.
Qed.

Lemma get_not_key r k : ~ In k (JS.keys r) -> JS.get r k = None.
Proof.
  induction r as [|[k' v'] r IH]; cbn; [easy|].
  intros H. destruct (String.eqb_spec k' k) as [->|]; [tauto|].
  apply IH. tauto.
Qed.

Lemma In_get r k v : NoDup (JS.keys r) -> In (k, v) r -> JS.get r k = Some v.
Proof.
  induction r as [|[k' v'] r IH]; cbn; [easy|].
  intros ND [[= -> ->] | H].
  - now rewrite String.eqb_refl.
  - inversion ND as [|? ? Hn ND']; subst.
    destruct (String.eqb_spec k' k) as [->|]; [|auto].
    exfalso. apply Hn. change k with (fst (k, v)). now apply in_map.
Qed.

Lemma set_fresh r k v : ~ In k (JS.keys r) -> JS.set r k v = r ++ [(k, v)].
Proof.
  induction r as [|[k' v'] r IH]; cbn; [easy|].
  intros H. destruct (String.eqb_spec k' k) as [->|]; [tauto|].
  rewrite IH; tauto.
Qed.

Lemma update_last r k v (f : V -> V) :
  ~ In k (JS.keys r) -> JS.update (r ++ [(k, v)]) k f = r ++ [(k, f v)].
Proof.
  induction r as [|[k' v'] r IH]; cbn.
  - now rewrite String.eqb_refl.
  - intros H. destruct (String.eqb_spec k' k) as [->|]; [tauto|].
    rewrite IH; tauto.
Qed.

Lemma delete_fresh r k : ~ In k (JS.keys r) -> JS.delete r k = r.
Proof.
  induction r as [|[k' v'] r IH]; cbn; [easy|].
  intros H. destruct (String.eqb_spec k' k) as [->|]; [tauto|].
  rewrite IH; tauto.
Qed.
End RecordFacts.

(* ================================================================= *)
(** ** Shape of the engine's result *)

Lemma buildAligned_from (data : StockData) (common tickers : list string)
    (acc : JS.record (list float)) :
  (forall t, In t tickers -> In t (JS.keys data)) ->
  exists alignedData,
    fold_left
      (fun acc ticker =>
         match acc, JS.get data ticker with
         | Some a, Some points => Some (JS.set a ticker (alignedPrices points common))
         | _, _ => None
         end)
      tickers (Some acc) = Some alignedData.
Proof.
  revert acc. induction tickers as [|t tickers IH]; intros acc H; cbn.
  - eauto.
  - destruct (get_of_key data t) as [points ->]; [apply H; now left|].
    apply IH. intros t' Ht'. apply H. now right.
Qed.

Lemma buildAligned_returns (data : StockData) (common : list string) :
  exists alignedData, buildAligned data common (JS.keys data) = Some alignedData.
Proof. apply buildAligned_from. auto. Qed.

(** The engine either answers with the empty result or with the three
    components built over all the keys of its input. *)
Lemma engine_cases (data : StockData) :
  calculateCorrelationMatrix data = Some emptyResult \/
  exists alignedData,
    JS.keys data <> [] /\
    2 <= length (commonTimestampsOf data (JS.keys data)) /\
    buildAligned data (commonTimestampsOf data (JS.keys data)) (JS.keys data)
      = Some alignedData /\
    calculateCorrelationMatrix data =
      Some (mkCorrelationMatrix
              (buildMatrix alignedData (JS.keys data))
              (buildDeviations alignedData (JS.keys data))
              (length (commonTimestampsOf data (JS.keys data)))).
Proof.
  unfold calculateCorrelationMatrix.
  destruct (Nat.eqb (length (JS.keys data)) 0) eqn:E0; [now left|].
  destruct (Nat.ltb _ 2) eqn:E2; [now left|].
  right.
  destruct (buildAligned_returns data (commonTimestampsOf data (JS.keys data)))
    as [a Ha].
  exists a. rewrite Ha. repeat split.
  - intros Hk. rewrite Hk in E0. discriminate.
  - apply Nat.ltb_ge in E2. exact E2.
Qed.

(** No input makes the engine throw. *)
Lemma engine_returns (data : StockData) :
  exists r, calculateCorrelationMatrix data = Some r.
Proof.
  destruct (engine_cases data) as [H | (a & _ & _ & _ & H)]; eauto.
Qed.

Lemma buildMatrix_length (a : JS.record (list float)) (tickers : list string) :
  length (buildMatrix a tickers) = length tickers.
Proof. unfold buildMatrix. now rewrite length_map, length_seq. Qed.

Lemma buildMatrix_entry (a : JS.record (list float)) (tickers : list string) (i j : nat) :
  i < length tickers -> j < length tickers ->
  entry (buildMatrix a tickers) i j = Some (matrixEntry a tickers i j).
Proof.
  intros Hi Hj. unfold entry, buildMatrix.
  rewrite nth_error_map, nth_error_seq.
  destruct (Nat.ltb_spec i (length tickers)) as [_|]; [|lia]. cbn.
  rewrite nth_error_map, nth_error_seq.
  destruct (Nat.ltb_spec j (length tickers)) as [_|]; [|lia]. reflexivity.
Qed.

Lemma matrixEntry_symmetric (a : JS.record (list float)) (tickers : list string)
    (i j : nat) :
  matrixEntry a tickers i j = matrixEntry a tickers j i.
Proof.
  unfold matrixEntry. rewrite (Nat.eqb_sym j i).
  destruct (Nat.eqb i j); [reflexivity|]. apply pearson_symmetric.
Qed.

(** C6: every diagonal entry of the returned matrix is the constant 1
    (assigned by the [i === j] branch, whatever the aligned vectors are). *)
Theorem matrix_diagonal_is_one (data : StockData) :
  exists r,
    calculateCorrelationMatrix data = Some r /\
    forall i, i < length (matrix r) -> entry (matrix r) i i = Some 1.
Proof.
  destruct (engine_cases data) as [H | (a & _ & _ & _ & H)];
    rewrite H; eexists; (split; [reflexivity|]); cbn [matrix emptyResult].
  - cbn. intros i Hi. lia.
  - intros i Hi. rewrite buildMatrix_length in Hi.
    rewrite buildMatrix_entry by assumption.
    unfold matrixEntry. now rewrite Nat.eqb_refl.
Qed.

(** C5: the returned matrix is symmetric; the entries at (i, j) and (j, i)
    are the same binary64 value although they come from two calls of
    [calculatePearsonCorrelation] with the arguments exchanged. *)
Theorem matrix_symmetric (data : StockData) :
  exists r,
    calculateCorrelationMatrix data = Some r /\
    forall i j, i < length (matrix r) -> j < length (matrix r) ->
      exists v, entry (matrix r) i j = Some v /\ entry (matrix r) j i = Some v.
Proof.
  destruct (engine_cases data) as [H | (a & _ & _ & _ & H)];
    rewrite H; eexists; (split; [reflexivity|]); cbn [matrix emptyResult].
  - cbn. intros i j Hi. lia.
  - intros i j Hi Hj. rewrite buildMatrix_length in Hi, Hj.
    exists (matrixEntry a (JS.keys data) i j).
    rewrite !buildMatrix_entry by assumption.
    split; [reflexivity|]. f_equal. apply matrixEntry_symmetric.
Qed.

Lemma scenario_result :
  calculateCorrelationMatrix scenario =
    Some (mkCorrelationMatrix
            [[1; 1]; [1; 1]]
            [("AAPL"%string, calculateStandardDeviation [100; 102; 101]);
             ("GOOGL"%string, calculateStandardDeviation [200; 204; 202])]
            3).
Proof. vm_compute. reflexivity. Qed.

Lemma matrix_diagonal_is_one_witness :
  exists r,
    calculateCorrelationMatrix scenario = Some r /\
    entry (matrix r) 0 0 = Some 1 /\ entry (matrix r) 1 1 = Some 1.
Proof.
  destruct (matrix_diagonal_is_one scenario) as [r [Hr Hd]].
  exists r. split; [exact Hr|].
  rewrite scenario_result in Hr. injection Hr as <-.
  split; apply Hd; cbn; lia.
Defined.

Lemma matrix_symmetric_witness :
  exists r,
    calculateCorrelationMatrix scenario = Some r /\
    exists v, entry (matrix r) 0 1 = Some v /\ entry (matrix r) 1 0 = Some v.
Proof.
  destruct (matrix_symmetric scenario) as [r [Hr Hs]].
  exists r. split; [exact Hr|].
  rewrite scenario_result in Hr. injection Hr as <-.
  apply Hs; cbn; lia.
Defined.

(* ================================================================= *)
(** ** Sets of timestamps and sorting *)

Lemma set_has_In (s : list string) (x : string) : JS.set_has s x = true <-> In x s.
Proof.
  unfold JS.set_has. rewrite existsb_exists. split.
  - intros (y & Hy & E). apply String.eqb_eq in E. now subst.
  - intros H. exists x. split; [assumption | apply String.eqb_refl].
Qed.

Lemma set_add_In (s : list string) (x y : string) :
  In y (JS.set_add s x) <-> In y s \/ y = x.
Proof.
  unfold JS.set_add. destruct (JS.set_has s x) eqn:E.
  - apply set_has_In in E. split; [tauto|]. intros [H | ->]; assumption.
  - rewrite in_app_iff. cbn. intuition congruence.
Qed.

Lemma set_add_NoDup (s : list string) (x : string) :
  NoDup s -> NoDup (JS.set_add s x).
Proof.
  intros ND. unfold JS.set_add. destruct (JS.set_has s x) eqn:E; [assumption|].
  assert (~ In x s) as Hx by (rewrite <- set_has_In, E; discriminate).
  apply NoDup_app; [assumption | repeat constructor; easy |].
  intros y Hy [<- | []]. contradiction.
Qed.

Lemma addPoints_In (points : list StockPrice) (s : list string) (ts : string) :
  In ts (fold_left (fun s point => JS.set_add s (timestamp point)) points s) <->
  In ts s \/ exists p, In p points /\ timestamp p = ts.
Proof.
  revert s. induction points as [|q points IH]; intros s; cbn [fold_left].
  - split; [tauto|]. intros [H | (p & [] & _)]. assumption.
  - rewrite IH, set_add_In. split.
    + intros [[H | ->] | (p & Hp & E)]; eauto.
      * right. exists q. split; [now left | reflexivity].
      * right. exists p. split; [now right | assumption].
    + intros [H | (p & [<- | Hp] & E)]; eauto.
Qed.

Lemma addPoints_NoDup (points : list StockPrice) (s : list string) :
  NoDup s ->
  NoDup (fold_left (fun s point => JS.set_add s (timestamp point)) points s).
Proof.
  revert s. induction points as [|q points IH]; intros s ND; cbn [fold_left].
  - assumption.
  - apply IH, set_add_NoDup, ND.
Qed.

Lemma collect_from_In (data : StockData) (tickers acc : list string) (ts : string) :
  In ts (fold_left
           (fun allTimestamps ticker =>
              match JS.get data ticker with
              | Some points =>
                  fold_left (fun s point => JS.set_add s (timestamp point))
                            points allTimestamps
              | None => allTimestamps
              end) tickers acc) <->
  In ts acc \/ seenAt data tickers ts.
Proof.
  revert acc. induction tickers as [|t tickers IH]; intros acc; cbn [fold_left].
  - split; [tauto|]. intros [H | (? & ? & ? & [] & _)]. assumption.
  - rewrite IH. unfold seenAt. destruct (JS.get data t) as [points|] eqn:G.
    + rewrite addPoints_In. split.
      * intros [[H | (p & Hp & E)] | (t' & pts & p & Ht & G' & Hp & E)].
        -- now left.
        -- right. exists t, points, p. cbn. auto.
        -- right. exists t', pts, p. cbn. auto.
      * intros [H | (t' & pts & p & [<- | Ht] & G' & Hp & E)].
        -- auto.
        -- rewrite G in G'. injection G' as <-. eauto.
        -- right. exists t', pts, p. auto.
    + split.
      * intros [H | (t' & pts & p & Ht & G' & Hp & E)]; [now left|].
        right. exists t', pts, p. cbn. auto.
      * intros [H | (t' & pts & p & [<- | Ht] & G' & Hp & E)].
        -- now left.
        -- congruence.
        -- right. exists t', pts, p. auto.
Qed.

Lemma collect_from_NoDup (data : StockData) (tickers acc : list string) :
  NoDup acc ->
  NoDup (fold_left
           (fun allTimestamps ticker =>
              match JS.get data ticker with
              | Some points =>
                  fold_left (fun s point => JS.set_add s (timestamp point))
                            points allTimestamps
              | None => allTimestamps
              end) tickers acc).
Proof.
  revert acc. induction tickers as [|t tickers IH]; intros acc ND; cbn [fold_left].
  - assumption.
  - apply IH. destruct (JS.get data t); [now apply addPoints_NoDup | assumption].
Qed.

Lemma collectTimestamps_In (data : StockData) (tickers : list string) (ts : string) :
  In ts (collectTimestamps data tickers) <-> seenAt data tickers ts.
Proof.
  unfold collectTimestamps. rewrite collect_from_In. cbn. tauto.
Qed.

Lemma collectTimestamps_NoDup (data : StockData) (tickers : list string) :
  NoDup (collectTimestamps data tickers).
Proof. apply collect_from_NoDup. constructor. Qed.

Lemma sort_insert_perm (x : string) (l : list string) :
  Permutation (JS.sort_insert x l) (x :: l).
Proof.
  induction l as [|y l IH]; cbn; [reflexivity|].
  destruct (String.leb x y); [reflexivity|].
  rewrite IH. apply perm_swap.
Qed.

Lemma sort_perm (l : list string) : Permutation (JS.sort l) l.
Proof.
  induction l as [|x l IH]; cbn; [reflexivity|].
  rewrite sort_insert_perm. now constructor.
Qed.

Lemma leb_lt_or_eq (a b : string) :
  String.leb a b = true <-> a = b \/ OrderedTypeEx.String_as_OT.lt a b.
Proof.
  unfold String.leb.
  rewrite <- OrderedTypeEx.String_as_OT.cmp_lt, <- OrderedTypeEx.String_as_OT.cmp_eq.
  unfold OrderedTypeEx.String_as_OT.cmp.
  destruct (String.compare a b); split; intros H; auto; try discriminate.
  destruct H; discriminate.
Qed.

Lemma leb_trans (a b c : string) :
  String.leb a b = true -> String.leb b c = true -> String.leb a c = true.
Proof.
  rewrite !leb_lt_or_eq. intros [-> | Hab] [-> | Hbc]; auto.
  right. eapply OrderedTypeEx.String_as_OT.lt_trans; eassumption.
Qed.

Lemma sort_insert_sorted (x : string) (l : list string) :
  Sorted (fun a b => String.leb a b = true) l ->
  Sorted (fun a b => String.leb a b = true) (JS.sort_insert x l).
Proof.
  induction l as [|y l IH]; intros S; cbn.
  - repeat constructor.
  - destruct (String.leb x y) eqn:E.
    + constructor; [assumption | now constructor].
    + inversion S as [|? ? S' Hd]; subst.
      constructor; [now apply IH|].
      destruct l as [|z l]; cbn.
      * constructor. destruct (String.leb_total x y); congruence.
      * destruct (String.leb x z).
        -- constructor. destruct (String.leb_total x y); congruence.
        -- inversion Hd; subst. now constructor.
Qed.

Lemma sort_In (l : list string) (x : string) : In x (JS.sort l) <-> In x l.
Proof.
  split; apply Permutation_in; [|symmetry]; apply sort_perm.
Qed.

Lemma sort_length (l : list string) : length (JS.sort l) = length l.
Proof. apply Permutation_length, sort_perm. Qed.

Lemma sort_NoDup (l : list string) : NoDup l -> NoDup (JS.sort l).
Proof. apply Permutation_NoDup. symmetry. apply sort_perm. Qed.

Lemma sort_ascending (l : list string) : ascending (JS.sort l).
Proof.
  apply Sorted_StronglySorted; [intros a b c; apply leb_trans|].
  induction l as [|x l IH]; cbn; [constructor | now apply sort_insert_sorted].
Qed.

(* ================================================================= *)
(** ** Common timestamps *)

Lemma hasFinitePoint_spec (points : list StockPrice) (ts : string) :
  hasFinitePoint points ts = true <-> finiteAt points ts.
Proof.
  unfold hasFinitePoint, finiteAt. rewrite existsb_exists.
  split; intros (p & Hp & H); exists p.
  - apply andb_true_iff in H. destruct H as [E F].
    apply String.eqb_eq in E. auto.
  - destruct H as [E F]. split; [assumption|].
    apply andb_true_iff. split; [now apply String.eqb_eq | assumption].
Qed.

Lemma isCommon_spec (data : StockData) (tickers : list string) (ts : string) :
  isCommon data tickers ts = true <->
  forall ticker, In ticker tickers ->
    exists points, JS.get data ticker = Some points /\ finiteAt points ts.
Proof.
  unfold isCommon. rewrite forallb_forall. split; intros H t Ht.
  - specialize (H t Ht). destruct (JS.get data t) as [points|]; [|discriminate].
    exists points. split; [reflexivity | now apply hasFinitePoint_spec].
  - destruct (H t Ht) as (points & -> & F). now apply hasFinitePoint_spec.
Qed.

Lemma commonTimestamps_In (data : StockData) (ts : string) :
  JS.keys data <> [] ->
  In ts (commonTimestampsOf data (JS.keys data)) <-> commonAt data ts.
Proof.
  intros Hne. unfold commonTimestampsOf.
  rewrite sort_In, filter_In, isCommon_spec, collectTimestamps_In.
  fold (commonAt data ts).
  split; [tauto|]. intros H. split; [|assumption].
  unfold commonAt in H.
  destruct (JS.keys data) as [|t0 tickers] eqn:K; [contradiction|].
  destruct (H t0 (or_introl eq_refl)) as (points & G & F).
  destruct F as (p & Hp & E & _).
  exists t0, points, p. cbn. auto.
Qed.

Lemma commonTimestamps_NoDup (data : StockData) (tickers : list string) :
  NoDup (commonTimestampsOf data tickers).
Proof.
  unfold commonTimestampsOf.
  apply sort_NoDup, NoDup_filter, collectTimestamps_NoDup.
Qed.

Lemma commonTimestamps_ascending (data : StockData) (tickers : list string) :
  ascending (commonTimestampsOf data tickers).
Proof. apply sort_ascending. Qed.

(** C2: the engine never throws; with no ticker, or with fewer than two
    common timestamps, it returns the empty result; otherwise [dataPoints]
    is the number of common timestamps.  The common timestamps are
    presented as a duplicate-free list [common] that holds exactly the
    timestamps satisfying [commonAt]. *)
Theorem empty_result_or_common_count (data : StockData) :
  (exists r, calculateCorrelationMatrix data = Some r) /\
  (JS.keys data = [] -> calculateCorrelationMatrix data = Some emptyResult) /\
  (JS.keys data <> [] ->
   exists common,
     NoDup common /\
     (forall ts, In ts common <-> commonAt data ts) /\
     (length common < 2 -> calculateCorrelationMatrix data = Some emptyResult) /\
     (2 <= length common ->
      exists r, calculateCorrelationMatrix data = Some r /\
                dataPoints r = length common)).
Proof.
  split; [apply engine_returns|]. split.
  - intros K. unfold calculateCorrelationMatrix. now rewrite K.
  - intros Hne. exists (commonTimestampsOf data (JS.keys data)).
    split; [apply commonTimestamps_NoDup|].
    split; [intros ts; now apply commonTimestamps_In|].
    split.
    + intros Hlt. unfold calculateCorrelationMatrix.
      destruct (Nat.eqb (length (JS.keys data)) 0); [reflexivity|].
      apply Nat.ltb_lt in Hlt. now rewrite Hlt.
    + intros Hge.
      destruct (engine_cases data) as [H | (a & _ & _ & _ & H)].
      * exfalso. unfold calculateCorrelationMatrix in H.
        destruct (Nat.eqb (length (JS.keys data)) 0) eqn:E0.
        -- apply Nat.eqb_eq in E0. apply Hne. now apply length_zero_iff_nil.
        -- rewrite (proj2 (Nat.ltb_ge _ _) Hge) in H.
           destruct (buildAligned_returns data
                       (commonTimestampsOf data (JS.keys data))) as [a Ha].
           rewrite Ha in H. injection H as _ _ H. lia.
      * eexists. split; [exact H | reflexivity].
Qed.

Lemma empty_result_or_common_count_witness :
  calculateCorrelationMatrix [] = Some emptyResult /\
  exists common,
    NoDup common /\
    (forall ts, In ts common <-> commonAt scenario ts) /\
    (length common < 2 -> calculateCorrelationMatrix scenario = Some emptyResult) /\
    (2 <= length common ->
     exists r, calculateCorrelationMatrix scenario = Some r /\
               dataPoints r = length common).
Proof.
  split.
  - apply (proj1 (proj2 (empty_result_or_common_count []))). reflexivity.
  - apply (proj2 (proj2 (empty_result_or_common_count scenario))). discriminate.
Defined.

(* ================================================================= *)
(** ** Ticker inclusion *)

Lemma engine_few_common (data : StockData) :
  length (commonTimestampsOf data (JS.keys data)) < 2 ->
  calculateCorrelationMatrix data = Some emptyResult.
Proof.
  intros Hlt. unfold calculateCorrelationMatrix.
  destruct (Nat.eqb (length (JS.keys data)) 0); [reflexivity|].
  apply Nat.ltb_lt in Hlt. now rewrite Hlt.
Qed.

Lemma set_all_from (f : string -> float) (tickers : list string) (acc : JS.record float) :
  NoDup (JS.keys acc ++ tickers) ->
  fold_left (fun sd t => JS.set sd t (f t)) tickers acc =
  acc ++ map (fun t => (t, f t)) tickers.
Proof.
  revert acc. induction tickers as [|t tickers IH]; intros acc ND; cbn.
  - now rewrite app_nil_r.
  - assert (~ In t (JS.keys acc)) as Ht.
    { apply NoDup_remove_2 in ND. rewrite in_app_iff in ND. tauto. }
    rewrite set_fresh by assumption. rewrite IH.
    + now rewrite <- app_assoc.
    + unfold JS.keys in *. rewrite map_app, <- app_assoc. exact ND.
Qed.

Lemma buildDeviations_keys (a : JS.record (list float)) (tickers : list string) :
  NoDup tickers -> JS.keys (buildDeviations a tickers) = tickers.
Proof.
  intros ND. unfold buildDeviations.
  rewrite (set_all_from
             (fun t => calculateStandardDeviation (arrayOf (JS.get a t)))) by exact ND.
  cbn. unfold JS.keys. rewrite map_map. cbn. apply map_id.
Qed.

Lemma buildMatrix_rows (a : JS.record (list float)) (tickers : list string)
    (row : list float) :
  In row (buildMatrix a tickers) -> length row = length tickers.
Proof.
  unfold buildMatrix. rewrite in_map_iff. intros (i & <- & _).
  now rewrite length_map, length_seq.
Qed.

(** C1 (counterexample): C overlaps with neither A nor B, yet A and B are
    missing from the result as well and [dataPoints] is 0, not 3. *)
Lemma gapped_loses_every_ticker :
  disjointTimestamps gapped "C" "A" /\
  disjointTimestamps gapped "C" "B" /\
  calculateCorrelationMatrix gapped = Some emptyResult /\
  ~ onlyMissing gapped "C" emptyResult.
Proof.
  assert (forall b pb, In (b, pb) [("A"%string, [pt "t1" 100; pt "t2" 102; pt "t3" 101]);
                                   ("B"%string, [pt "t3" 202; pt "t1" 200; pt "t2" 204])] ->
          forall p q, In p [pt "t8" 1; pt "t9" 2] -> In q pb ->
                      timestamp p <> timestamp q) as D.
  { intros b pb Hb p q Hp Hq. cbn in Hb, Hp.
    destruct Hb as [[= <- <-] | [[= <- <-] | []]];
      destruct Hp as [<- | [<- | []]]; cbn in Hq;
      destruct Hq as [<- | [<- | [<- | []]]]; discriminate. }
  split; [|split; [|split]].
  - intros pa pb p q [= <-] [= <-]. apply (D "A"%string). now left.
  - intros pa pb p q [= <-] [= <-]. apply (D "B"%string). right. now left.
  - vm_compute. reflexivity.
  - intros (_ & _ & H). vm_compute in H. discriminate.
Qed.

Lemma engine_many_common (data : StockData) :
  JS.keys data <> [] ->
  2 <= length (commonTimestampsOf data (JS.keys data)) ->
  exists r, calculateCorrelationMatrix data = Some r /\
            dataPoints r = length (commonTimestampsOf data (JS.keys data)).
Proof.
  intros Hne Hge. unfold calculateCorrelationMatrix.
  destruct (Nat.eqb (length (JS.keys data)) 0) eqn:E0.
  - apply Nat.eqb_eq, length_zero_iff_nil in E0. contradiction.
  - rewrite (proj2 (Nat.ltb_ge _ _) Hge).
    destruct (buildAligned_returns data
                (commonTimestampsOf data (JS.keys data))) as [a Ha].
    rewrite Ha. eexists. split; reflexivity.
Qed.

Lemma two_distinct_length {A : Type} (l : list A) (a b : A) :
  a <> b -> In a l -> In b l -> 2 <= length l.
Proof.
  intros Hab Ha Hb. destruct l as [|x [|y l]]; cbn in *; [tauto| |lia].
  destruct Ha as [<- | []], Hb as [<- | []]. contradiction.
Qed.

Lemma gapped_C_apart (other : string) :
  other = "A"%string \/ other = "B"%string ->
  disjointTimestamps gapped "C" other.
Proof.
  intros [-> | ->] pa pb p q [= <-] [= <-] Hp Hq; cbn in Hp, Hq;
    destruct Hp as [<- | [<- | []]];
    destruct Hq as [<- | [<- | [<- | []]]]; discriminate.
Qed.

(** C1 (amended): the result is all or nothing.  It is either the empty
    result, or it has a matrix with one row and one column per input
    ticker, at least 2 data points, and a [standardDeviations] entry for
    every input ticker, in input order and for no other key (a key named
    [__proto__] apart, under which the assignment creates no entry).
    When two tickers share no timestamp the result is empty; when the
    tickers have two distinct common timestamps it is not. *)
Theorem result_all_or_nothing (data : StockData) :
  wellFormed data ->
  exists r,
    calculateCorrelationMatrix data = Some r /\
    (r = emptyResult \/
     (filter plainKey (JS.keys (standardDeviations r))
        = filter plainKey (JS.keys data) /\
      incl (JS.keys (standardDeviations r)) (JS.keys data) /\
      length (matrix r) = length (JS.keys data) /\
      (forall row, In row (matrix r) -> length row = length (JS.keys data)) /\
      2 <= dataPoints r)) /\
    (forall a b, In a (JS.keys data) -> In b (JS.keys data) ->
                 disjointTimestamps data a b -> r = emptyResult) /\
    (forall ts1 ts2, JS.keys data <> [] -> ts1 <> ts2 ->
                 commonAt data ts1 -> commonAt data ts2 -> r <> emptyResult).
Proof.
  intros WF.
  assert (forall ts1 ts2, JS.keys data <> [] -> ts1 <> ts2 ->
            commonAt data ts1 -> commonAt data ts2 ->
            2 <= length (commonTimestampsOf data (JS.keys data))) as Two.
  { intros ts1 ts2 Hne Hd H1 H2.
    apply (two_distinct_length _ ts1 ts2 Hd);
      now apply commonTimestamps_In. }
  destruct (engine_cases data) as [H | (al & Hne & Hge & _ & H)];
    rewrite H; eexists; (split; [reflexivity|]).
  - split; [now left|]. split; [reflexivity|].
    intros ts1 ts2 Hne Hd H1 H2. exfalso.
    destruct (engine_many_common data Hne (Two ts1 ts2 Hne Hd H1 H2))
      as (r & Hr & Hn).
    rewrite H in Hr. injection Hr as <-. cbn in Hn.
    specialize (Two ts1 ts2 Hne Hd H1 H2). lia.
  - split; [|split].
    + right. cbn [standardDeviations matrix dataPoints].
      rewrite buildDeviations_keys by exact WF.
      split; [reflexivity|].
      split; [apply incl_refl|].
      split; [apply buildMatrix_length|].
      split; [apply buildMatrix_rows | exact Hge].
    + intros a b Ha Hb D. exfalso.
      destruct (commonTimestampsOf data (JS.keys data)) as [|ts c] eqn:C;
        [cbn in Hge; lia|].
      assert (commonAt data ts) as Hc.
      { apply commonTimestamps_In; [assumption|]. rewrite C. now left. }
      destruct (Hc a Ha) as (pa & Ga & p & Hp & Ep & _).
      destruct (Hc b Hb) as (pb & Gb & q & Hq & Eq & _).
      apply (D pa pb p q Ga Gb Hp Hq). congruence.
    + intros _ _ _ _ _ _ E. apply (f_equal dataPoints) in E.
      cbn in E. lia.
Qed.

Lemma result_all_or_nothing_witness :
  (exists r,
     calculateCorrelationMatrix scenario = Some r /\
     r <> emptyResult /\
     filter plainKey (JS.keys (standardDeviations r)) = ["AAPL"; "GOOGL"]%string /\
     length (matrix r) = 2%nat /\ 2 <= dataPoints r) /\
  (exists r, calculateCorrelationMatrix gapped = Some r /\ r = emptyResult).
Proof.
  split.
  - destruct (result_all_or_nothing scenario)
      as (r & Hr & [He | (K & _ & L & _ & D)] & _ & _).
    + distinct_strings.
    + exfalso. rewrite scenario_result, He in Hr. discriminate.
    + exists r. split; [exact Hr|]. split; [|split; [exact K|split; [exact L | exact D]]].
      intros E. rewrite E in D. cbn in D. lia.
  - destruct (result_all_or_nothing gapped) as (r & Hr & _ & Hd & _).
    + distinct_strings.
    + exists r. split; [exact Hr|].
      apply (Hd "C"%string "A"%string); cbn; [tauto | tauto |].
      apply gapped_C_apart. now left.
Defined.

(* ================================================================= *)
(** ** Standard deviation *)

Lemma filter_all {A : Type} (f : A -> bool) (l : list A) :
  Forall (fun x => f x = true) l -> filter f l = l.
Proof.
  induction 1 as [|x l Hx _ IH]; cbn; [reflexivity|]. now rewrite Hx, IH.
Qed.

Lemma filter_valid (f : float -> bool) (l : list float) :
  Forall (fun x => f x = true) (filter f l).
Proof. apply Forall_forall. intros x Hx. now apply filter_In in Hx. Qed.

Lemma average_of_finite (l : list float) :
  l <> [] -> Forall (fun x => validNumber x = true) l ->
  calculateAverage l = meanOverN l.
Proof.
  intros Hne Hf. unfold calculateAverage. rewrite (filter_all _ _ Hf).
  destruct l as [|x l]; [contradiction|]. reflexivity.
Qed.

(** C7: on the three finite values [3 * 2^511, 0, 0] the squared
    deviations are [Infinity, 2^1022, 2^1022]; the variance is taken with
    [calculateAverage], which drops the overflowed one and averages the
    two others, dividing by 2 = N - 1: the result is 2^511, where the
    formula dividing by N = 3 gives Infinity.  On [2^700, -2^700] both
    squared deviations overflow, the variance is the 0 that
    [calculateAverage] gives for nothing to average, and the result is 0. *)
Lemma overflow_changes_the_divisor :
  filter validNumber overflowing = overflowing /\
  map (fun x => JS.Math_pow2 (x - meanOverN overflowing)) overflowing
    = [infinity; 0x1p1022; 0x1p1022] /\
  calculateStandardDeviation overflowing = JS.Math_sqrt ((0x1p1022 + 0x1p1022) / 2) /\
  calculateStandardDeviation overflowing = 0x1p511 /\
  standardDeviation_spec overflowing = infinity /\
  calculateStandardDeviation overflowing <> standardDeviation_spec overflowing /\
  filter validNumber huge = huge /\
  calculateStandardDeviation huge = 0 /\
  standardDeviation_spec huge = infinity.
Proof.
  repeat split; try (vm_compute; reflexivity).
  intros H. apply (f_equal is_finite) in H. vm_compute in H. discriminate.
Qed.

(** X25: non-finite entries are dropped; an empty cleaned sequence
    gives 0; otherwise, when every squared deviation is finite, the
    result is the population standard deviation dividing by N; and the
    vector [2,4,4,4,5,5,7,9] gives exactly 2. *)
Theorem standard_deviation_population :
  (forall numbers : list float,
     let cleaned := filter validNumber numbers in
     (cleaned = [] -> calculateStandardDeviation numbers = 0) /\
     (cleaned <> [] ->
      Forall (fun x => JS.isFinite (JS.Math_pow2 (x - meanOverN cleaned)) = true)
             cleaned ->
      calculateStandardDeviation numbers = populationDeviation cleaned)) /\
  calculateStandardDeviation [2; 4; 4; 4; 5; 5; 7; 9] = 2.
Proof.
  split; [|vm_compute; reflexivity].
  intros numbers cleaned. subst cleaned.
  unfold calculateStandardDeviation.
  destruct numbers as [|n0 numbers]; [split; [reflexivity | easy]|].
  cbn [length Nat.eqb].
  set (cleaned := filter validNumber (n0 :: numbers)).
  split.
  - intros ->. reflexivity.
  - intros Hne Hsq.
    destruct cleaned as [|c0 cleaned'] eqn:E; [contradiction|].
    cbn [length Nat.eqb]. rewrite <- E in *.
    assert (Forall (fun x => validNumber x = true) cleaned) as Hv
      by apply filter_valid.
    rewrite (average_of_finite _ Hne Hv).
    rewrite average_of_finite.
    + reflexivity.
    + rewrite E. discriminate.
    + apply Forall_map. exact Hsq.
Qed.

Lemma standard_deviation_population_witness :
  calculateStandardDeviation [2; nan; 4; 4; 4; 5; infinity; 5; 7; 9]
    = populationDeviation [2; 4; 4; 4; 5; 5; 7; 9] /\
  calculateStandardDeviation [nan; infinity] = 0.
Proof.
  split.
  - apply (proj1 standard_deviation_population
             [2; nan; 4; 4; 4; 5; infinity; 5; 7; 9]).
    + discriminate.
    + repeat constructor.
  - apply (proj1 standard_deviation_population [nan; infinity]). reflexivity.
Defined.

(* ================================================================= *)
(** ** Evaluations on inputs with non-finite or very large prices *)

(** C4: on finite inputs whose sums of squares overflow, numerator and
    denominator are both infinite and the quotient is NaN, which
    [Math.min] and [Math.max] hand through: the result is not in [-1, 1]. *)
Theorem pearson_overflow_is_nan :
  Forall (fun v => JS.isFinite v = true) huge /\
  calculatePearsonCorrelation huge huge = nan /\
  (-1 <=? calculatePearsonCorrelation huge huge) = false /\
  (calculatePearsonCorrelation huge huge <=? 1) = false.
Proof.
  split; [repeat constructor|].
  repeat split; vm_compute; reflexivity.
Qed.

(** C9: union mode copies prices as they are; NaN and Infinity reach the
    aligned vector. *)
Theorem union_mode_keeps_non_finite :
  alignStockData withNaN = [("A"%string, [nan; 1; infinity])].
Proof. vm_compute. reflexivity. Qed.

(** C3: t1 is a common timestamp thanks to A's second point, but the
    lookup takes A's first point, whose NaN price the final filter drops:
    A's aligned vector has 1 element while [dataPoints] is 2. *)
Theorem aligned_vector_shorter_than_dataPoints :
  commonTimestampsOf duplicated (JS.keys duplicated) = ["t1"; "t2"]%string /\
  buildAligned duplicated ["t1"; "t2"]%string (JS.keys duplicated)
    = Some [("A"%string, [6]); ("B"%string, [1; 2])] /\
  exists r, calculateCorrelationMatrix duplicated = Some r /\
            dataPoints r = 2%nat /\
            matrix r = [[1; 0]; [0; 1]].
Proof.
  split; [vm_compute; reflexivity|].
  split; [vm_compute; reflexivity|].
  eexists. split; [vm_compute; reflexivity|].
  split; reflexivity.
Qed.

(* ================================================================= *)
(** ** Union-mode alignment *)

Lemma findPoint_Some (points : list StockPrice) (ts : string) (p : StockPrice) :
  findPoint points ts = Some p -> In p points /\ timestamp p = ts.
Proof.
  unfold findPoint. intros H. apply find_some in H.
  destruct H as [Hin E]. apply String.eqb_eq in E. auto.
Qed.

Lemma findPoint_None (points : list StockPrice) (ts : string) :
  findPoint points ts = None <-> ~ exists p, In p points /\ timestamp p = ts.
Proof.
  unfold findPoint. split.
  - intros H (p & Hp & E). apply (find_none _ _ H) in Hp.
    rewrite E, String.eqb_refl in Hp. discriminate.
  - intros H. destruct (find _ points) as [p|] eqn:F; [|reflexivity].
    exfalso. apply H. exists p. now apply (findPoint_Some points ts p).
Qed.

Lemma get_app_fresh {V : Type} (r1 r2 : JS.record V) (k : string) :
  ~ In k (JS.keys r1) -> JS.get (r1 ++ r2) k = JS.get r2 k.
Proof.
  induction r1 as [|[k' v'] r1 IH]; cbn; [easy|].
  intros H. destruct (String.eqb_spec k' k) as [->|]; [tauto|].
  apply IH. tauto.
Qed.

Lemma delete_app_fresh {V : Type} (r1 r2 : JS.record V) (k : string) :
  ~ In k (JS.keys r1) -> JS.delete (r1 ++ r2) k = r1 ++ JS.delete r2 k.
Proof.
  induction r1 as [|[k' v'] r1 IH]; cbn; [easy|].
  intros H. destruct (String.eqb_spec k' k) as [->|]; [tauto|].
  rewrite IH; tauto.
Qed.

Lemma push_scan (points : list StockPrice) (ticker : string) (union : list string)
    (a : JS.record (list float)) (v0 : list float) :
  ~ In ticker (JS.keys a) ->
  fold_left
    (fun alignedData ts =>
       match findPoint points ts with
       | Some dataPoint =>
           JS.update alignedData ticker (fun v => v ++ [price dataPoint])
       | None => alignedData
       end)
    union (a ++ [(ticker, v0)])
  = a ++ [(ticker, v0 ++ scanUnion points union)].
Proof.
  intros Hk. revert v0. induction union as [|ts union IH]; intros v0; cbn.
  - now rewrite app_nil_r.
  - destruct (findPoint points ts) as [dp|].
    + rewrite update_last by assumption. rewrite IH.
      cbn. now rewrite <- app_assoc.
    + apply IH.
Qed.

Lemma alignTicker_fresh (stocksData : StockData) (union : list string)
    (a : JS.record (list float)) (ticker : string) :
  ~ In ticker (JS.keys a) ->
  alignTicker stocksData union a ticker
  = a ++ [(ticker, scanUnion (seriesOf stocksData ticker) union)].
Proof.
  intros Hk. unfold alignTicker. rewrite set_fresh by assumption.
  now rewrite push_scan.
Qed.

Lemma alignTickers_from (stocksData : StockData) (union tickers : list string)
    (a : JS.record (list float)) :
  NoDup (JS.keys a ++ tickers) ->
  fold_left (alignTicker stocksData union) tickers a
  = a ++ map (fun t => (t, scanUnion (seriesOf stocksData t) union)) tickers.
Proof.
  revert a. induction tickers as [|t tickers IH]; intros a ND; cbn.
  - now rewrite app_nil_r.
  - assert (~ In t (JS.keys a)) as Ht.
    { apply NoDup_remove_2 in ND. rewrite in_app_iff in ND. tauto. }
    rewrite alignTicker_fresh by assumption. rewrite IH.
    + now rewrite <- app_assoc.
    + unfold JS.keys in *. rewrite map_app, <- app_assoc. exact ND.
Qed.

Lemma scan_by_entry (stocksData : StockData) (union : list string) :
  wellFormed stocksData ->
  map (fun t => (t, scanUnion (seriesOf stocksData t) union)) (JS.keys stocksData)
  = map (fun kv => (fst kv, scanUnion (snd kv) union)) stocksData.
Proof.
  intros WF. unfold JS.keys. rewrite map_map. apply map_ext_in.
  intros [t points] Hin. cbn. unfold seriesOf.
  now rewrite (In_get stocksData t points WF Hin).
Qed.

Lemma dropShort_from (kept rest : JS.record (list float)) :
  NoDup (JS.keys (kept ++ rest)) ->
  fold_left dropShort (JS.keys rest) (kept ++ rest)
  = kept ++ filter longEnough rest.
Proof.
  revert kept. induction rest as [|[k v] rest IH]; intros kept ND.
  - reflexivity.
  - assert (~ In k (JS.keys kept)) as Hk.
    { unfold JS.keys in *. rewrite map_app in ND. cbn in ND.
      apply NoDup_remove_2 in ND. rewrite in_app_iff in ND. tauto. }
    assert (dropShort (kept ++ (k, v) :: rest) k
            = if Nat.ltb (length v) 2 then kept ++ rest
              else kept ++ (k, v) :: rest) as D.
    { unfold dropShort. rewrite get_app_fresh by assumption.
      cbn [JS.get]. rewrite String.eqb_refl.
      destruct (Nat.ltb (length v) 2); [|reflexivity].
      rewrite delete_app_fresh by assumption.
      cbn [JS.delete]. now rewrite String.eqb_refl. }
    assert (longEnough (k, v) = negb (Nat.ltb (length v) 2)) as L.
    { unfold longEnough. cbn [snd].
      destruct (Nat.ltb_spec (length v) 2), (Nat.leb_spec 2 (length v));
        (reflexivity || lia). }
    change (JS.keys ((k, v) :: rest)) with (k :: JS.keys rest).
    cbn [fold_left filter]. rewrite D, L.
    destruct (Nat.ltb (length v) 2); cbn [negb].
    + apply IH. unfold JS.keys in *. rewrite map_app in *. cbn in ND.
      now apply NoDup_remove_1 in ND.
    + change (kept ++ (k, v) :: rest) with (kept ++ [(k, v)] ++ rest).
      change (kept ++ (k, v) :: filter longEnough rest)
        with (kept ++ [(k, v)] ++ filter longEnough rest).
      rewrite !app_assoc. apply IH. now rewrite <- app_assoc.
Qed.

Lemma keys_scan (stocksData : StockData) (union : list string) :
  JS.keys (map (fun kv : string * list StockPrice =>
                  (fst kv, scanUnion (snd kv) union)) stocksData)
  = JS.keys stocksData.
Proof. unfold JS.keys. rewrite map_map. reflexivity. Qed.

Lemma find_first_of_filter {A : Type} (f : A -> bool) (l : list A) :
  find f l = hd_error (filter f l).
Proof.
  induction l as [|x l IH]; cbn; [reflexivity|].
  destruct (f x); [reflexivity | exact IH].
Qed.

Lemma scanUnion_unionVector (points : list StockPrice) (union : list string) :
  scanUnion points union = unionVector points union.
Proof.
  unfold scanUnion, unionVector. apply flat_map_ext. intros ts.
  unfold findPoint, pricesAt. rewrite find_first_of_filter.
  destruct (filter _ points); reflexivity.
Qed.

Lemma alignStockData_built (stocksData : StockData) :
  wellFormed stocksData ->
  alignStockData stocksData
  = filter longEnough
      (map (fun kv => (fst kv,
                       unionVector (snd kv)
                         (JS.sort (collectTimestamps stocksData (JS.keys stocksData)))))
           stocksData).
Proof.
  intros WF.
  set (union := JS.sort (collectTimestamps stocksData (JS.keys stocksData))).
  rewrite <- (map_ext (fun kv => (fst kv, scanUnion (snd kv) union)))
    by (intros kv; now rewrite scanUnion_unionVector).
  unfold alignStockData.
  destruct (Nat.eqb (length (JS.keys stocksData)) 0) eqn:E0.
  - apply Nat.eqb_eq, length_zero_iff_nil in E0.
    destruct stocksData; [reflexivity | discriminate].
  - fold union.
    rewrite (alignTickers_from stocksData union (JS.keys stocksData) [])
      by exact WF.
    cbn [app]. rewrite scan_by_entry by exact WF.
    set (built := map _ stocksData).
    apply (dropShort_from [] built). cbn [app].
    subst built. rewrite keys_scan. exact WF.
Qed.

(** C8: with [union] the ascending, duplicate-free list of all the
    timestamps seen in the input, every vector of the result is the
    vector of its ticker over [union] (the price of the ticker's point at
    each timestamp of [union] where it has one, nothing where it has
    none), and has at least 2 entries; and, a key named [__proto__]
    apart (under which the assignment creates no entry), the result
    holds, in input order, exactly the tickers whose vector has at least
    2 entries. *)
Theorem alignStockData_scans_sorted_union (stocksData : StockData) :
  wellFormed stocksData ->
  exists union,
    ascending union /\
    NoDup union /\
    (forall ts, In ts union <-> seenAt stocksData (JS.keys stocksData) ts) /\
    (forall ticker v, In (ticker, v) (alignStockData stocksData) ->
       2 <= length v /\
       exists points, In (ticker, points) stocksData /\
                      v = unionVector points union) /\
    filter plainEntry (alignStockData stocksData)
      = filter plainEntry
          (filter longEnough
             (map (fun kv => (fst kv, unionVector (snd kv) union)) stocksData)).
Proof.
  intros WF.
  pose proof (alignStockData_built stocksData WF) as E.
  set (union := JS.sort (collectTimestamps stocksData (JS.keys stocksData))) in *.
  exists union. split; [apply sort_ascending|].
  split; [apply sort_NoDup, collectTimestamps_NoDup|].
  split; [intros ts; unfold union; rewrite sort_In; apply collectTimestamps_In|].
  split; [|now rewrite E].
  intros ticker v Hin. rewrite E in Hin. apply filter_In in Hin.
  destruct Hin as [Hin H]. unfold longEnough in H. cbn [snd] in H.
  split; [now apply Nat.leb_le in H|].
  apply in_map_iff in Hin. destruct Hin as ([t points] & [= <- <-] & Hin).
  exists points. now split.
Qed.

Lemma alignStockData_scans_sorted_union_witness :
  exists union,
    ascending union /\
    NoDup union /\
    (forall ts, In ts union <-> seenAt gapped (JS.keys gapped) ts) /\
    (forall ticker v, In (ticker, v) (alignStockData gapped) ->
       2 <= length v /\
       exists points, In (ticker, points) gapped /\
                      v = unionVector points union) /\
    filter plainEntry (alignStockData gapped)
      = filter plainEntry
          (filter longEnough
             (map (fun kv => (fst kv, unionVector (snd kv) union)) gapped)).
Proof.
  apply (alignStockData_scans_sorted_union gapped).
  distinct_strings.
Defined.

(* ================================================================= *)
(** ** Intersection-mode alignment *)

(** At a timestamp where the series has a finite point the lookup finds
    a point: the branch that substitutes 0 is not taken. *)
Lemma lookup_never_fails (points : list StockPrice) (ts : string) :
  finiteAt points ts ->
  exists p, findPoint points ts = Some p /\ In p points /\ timestamp p = ts /\
            lookupPrice points ts = price p.
Proof.
  intros (q & Hq & E & _). unfold lookupPrice.
  destruct (findPoint points ts) as [p|] eqn:F.
  - exists p. destruct (findPoint_Some points ts p F). auto.
  - exfalso. apply (proj1 (findPoint_None points ts) F). eauto.
Qed.

(** X1: for every ticker and every common timestamp of the engine the
    lookup of step 3 finds a point of the ticker, so the value it yields is
    a price of the series and never the substituted 0. *)
Lemma lookupPrice_is_a_price (data : StockData) (ticker ts : string) :
  In ticker (JS.keys data) ->
  In ts (commonTimestampsOf data (JS.keys data)) ->
  exists points p,
    JS.get data ticker = Some points /\
    findPoint points ts = Some p /\ lookupPrice points ts = price p.
Proof.
  intros Ht Hts.
  assert (JS.keys data <> []) as Hne by (intros K; rewrite K in Ht; easy).
  apply commonTimestamps_In in Hts; [|assumption].
  destruct (Hts ticker Ht) as (points & G & F).
  destruct (lookup_never_fails points ts F) as (p & Hf & _ & _ & Hl).
  exists points, p. auto.
Qed.

Lemma lookupPrice_is_a_price_witness :
  exists points p,
    JS.get scenario "GOOGL" = Some points /\
    findPoint points "t2" = Some p /\ lookupPrice points "t2" = price p.
Proof.
  apply (lookupPrice_is_a_price scenario "GOOGL" "t2").
  - cbn. right. left. reflexivity.
  - vm_compute. right. left. reflexivity.
Defined.

Lemma alignedPrices_length_le (points : list StockPrice) (common : list string) :
  length (alignedPrices points common) <= length common.
Proof.
  unfold alignedPrices.
  rewrite <- (length_map (lookupPrice points) common). apply filter_length_le.
Qed.

Lemma find_unique_stamp (points : list StockPrice) (p : StockPrice) :
  NoDup (map timestamp points) -> In p points ->
  findPoint points (timestamp p) = Some p.
Proof.
  unfold findPoint. induction points as [|q points IH]; cbn; [easy|].
  intros ND [-> | Hin].
  - now rewrite String.eqb_refl.
  - inversion ND as [|? ? Hq ND']; subst.
    destruct (String.eqb_spec (timestamp q) (timestamp p)) as [E|]; [|auto].
    exfalso. apply Hq. rewrite E. now apply in_map.
Qed.

(** When no ticker repeats a timestamp, every aligned vector has one
    entry per common timestamp. *)
Lemma alignedPrices_full_length (points : list StockPrice) (common : list string) :
  NoDup (map timestamp points) ->
  (forall ts, In ts common -> finiteAt points ts) ->
  alignedPrices points common = map (lookupPrice points) common.
Proof.
  intros ND H. unfold alignedPrices. apply filter_all.
  apply Forall_forall. intros v Hv. apply in_map_iff in Hv.
  destruct Hv as (ts & <- & Hts).
  destruct (H ts Hts) as (p & Hp & <- & Hfin).
  unfold lookupPrice. now rewrite (find_unique_stamp points p ND Hp).
Qed.

Lemma set_values {V : Type} (P : V -> Prop) (r : JS.record V) (k : string) (v : V) :
  (forall k' v', In (k', v') r -> P v') -> P v ->
  forall k' v', In (k', v') (JS.set r k v) -> P v'.
Proof.
  induction r as [|[k0 v0] r IH]; cbn; intros Hr Hv k' v'.
  - intros [[= <- <-] | []]. assumption.
  - destruct (String.eqb k0 k); cbn.
    + intros [[= <- <-] | Hin]; [assumption | eauto].
    + intros [[= <- <-] | Hin]; [eauto|].
      apply (IH (fun k1 v1 H1 => Hr k1 v1 (or_intror H1)) Hv k' v' Hin).
Qed.

Lemma buildAligned_values (P : list float -> Prop) (data : StockData)
    (common tickers : list string) (acc : option (JS.record (list float)))
    (alignedData : JS.record (list float)) :
  (forall points, P (alignedPrices points common)) ->
  (forall a, acc = Some a -> forall k v, In (k, v) a -> P v) ->
  fold_left
    (fun acc ticker =>
       match acc, JS.get data ticker with
       | Some a, Some points => Some (JS.set a ticker (alignedPrices points common))
       | _, _ => None
       end)
    tickers acc = Some alignedData ->
  forall k v, In (k, v) alignedData -> P v.
Proof.
  intros HP. revert acc. induction tickers as [|t tickers IH]; intros acc Hacc; cbn.
  - intros ->. now apply Hacc.
  - apply IH. intros a Ha.
    destruct acc as [a0|]; [|discriminate].
    destruct (JS.get data t) as [points|]; [|discriminate].
    injection Ha as <-. apply set_values; [now apply Hacc | apply HP].
Qed.

(** X2: in intersection mode the aligned vectors hold finite values only. *)
Lemma intersection_vectors_finite (data : StockData) (common : list string)
    (alignedData : JS.record (list float)) :
  buildAligned data common (JS.keys data) = Some alignedData ->
  forall ticker v, In (ticker, v) alignedData ->
    Forall (fun x => JS.isFinite x = true) v.
Proof.
  unfold buildAligned.
  apply (buildAligned_values (Forall (fun x => JS.isFinite x = true))).
  - intros points. apply (filter_valid validNumber).
  - intros a [= <-] k v [].
Qed.

Lemma intersection_vectors_finite_witness :
  Forall (fun x => JS.isFinite x = true) [6].
Proof.
  apply (intersection_vectors_finite duplicated ["t1"; "t2"]%string
           [("A"%string, [6]); ("B"%string, [1; 2])] eq_refl "A"%string [6]).
  left. reflexivity.
Defined.

(* ================================================================= *)
(** ** Order of binary64 values and the clamp *)

Lemma SFcompare_antisym (x y : SpecFloat.spec_float) :
  SpecFloat.SFcompare y x = option_map CompOpp (SpecFloat.SFcompare x y).
Proof.
  destruct x as [sx|sx| |sx mx ex], y as [sy|sy| |sy my ey]; cbn;
    try reflexivity;
    try (destruct sx; reflexivity);
    try (destruct sy; reflexivity);
    try (destruct sx, sy; reflexivity).
  assert (Pos.compare_cont Eq my mx = CompOpp (Pos.compare_cont Eq mx my)) as HP
    by (symmetry; apply (Pos.compare_cont_antisym mx my Eq)).
  destruct sx, sy; try reflexivity;
    rewrite (Z.compare_antisym ex ey), HP;
    destruct (Z.compare ex ey); cbn; try reflexivity;
    destruct (Pos.compare_cont Eq mx my); reflexivity.
Qed.

Lemma is_nan_false (a : float) :
  is_nan a = false -> Prim2SF a <> SpecFloat.S754_nan.
Proof.
  unfold is_nan. rewrite FloatAxioms.eqb_spec. unfold SpecFloat.SFeqb.
  intros H E. rewrite E in H. discriminate.
Qed.

Lemma SFcompare_defined (x y : SpecFloat.spec_float) :
  x <> SpecFloat.S754_nan -> y <> SpecFloat.S754_nan ->
  exists c, SpecFloat.SFcompare x y = Some c.
Proof.
  destruct x, y; cbn; intros Hx Hy; try contradiction; eauto.
Qed.

Lemma ltb_false_leb (a b : float) :
  is_nan a = false -> is_nan b = false -> (a <? b) = false -> (b <=? a) = true.
Proof.
  intros Ha Hb. rewrite ltb_spec, leb_spec.
  unfold SpecFloat.SFltb, SpecFloat.SFleb.
  rewrite (SFcompare_antisym (Prim2SF a) (Prim2SF b)).
  destruct (SFcompare_defined _ _ (is_nan_false a Ha) (is_nan_false b Hb)) as [c ->].
  destruct c; cbn; congruence.
Qed.

Lemma Math_min_one (c : float) :
  JS.Math_min 1 c = if is_nan c then nan else if 1 <? c then 1 else c.
Proof.
  unfold JS.Math_min.
  change (is_nan 1) with false. change (get_sign 1) with false. cbn [orb].
  destruct (is_nan c), (1 <? c), (c <? 1); reflexivity.
Qed.

Lemma Math_max_minus_one (m : float) :
  JS.Math_max (-1) m = if is_nan m then nan else if m <? -1 then -1 else m.
Proof.
  unfold JS.Math_max.
  change (is_nan (-1)) with false. change (get_sign (-1)) with true. cbn [orb].
  destruct (is_nan m), (m <? -1), (-1 <? m); reflexivity.
Qed.

(** The clamp yields NaN on NaN and a value of [-1, 1] otherwise. *)
Lemma clamp_range (c : float) :
  (is_nan c = true /\ clamp c = nan) \/
  (is_nan c = false /\ (-1 <=? clamp c) = true /\ (clamp c <=? 1) = true).
Proof.
  unfold clamp. rewrite Math_min_one.
  destruct (is_nan c) eqn:N; [left; split; reflexivity|].
  right. split; [reflexivity|].
  destruct (1 <? c) eqn:L1; [split; reflexivity|].
  rewrite Math_max_minus_one, N.
  destruct (c <? -1) eqn:L2; [split; reflexivity|].
  split.
  - apply ltb_false_leb; [assumption | reflexivity | assumption].
  - apply ltb_false_leb; [reflexivity | assumption | assumption].
Qed.

(** X3: the result of [calculatePearsonCorrelation] is NaN or lies in
    [-1, 1], for all arrays. *)
Lemma pearson_range_or_nan (x y : list float) :
  calculatePearsonCorrelation x y = nan \/
  ((-1 <=? calculatePearsonCorrelation x y) = true /\
   (calculatePearsonCorrelation x y <=? 1) = true).
Proof.
  unfold calculatePearsonCorrelation.
  destruct (negb _ || _); [right; split; reflexivity|].
  destruct (Nat.ltb _ 2); [right; split; reflexivity|].
  destruct (JS.strict_eq _ 0); [right; split; reflexivity|].
  match goal with
  | |- context [clamp ?c] => destruct (clamp_range c) as [[_ H] | [_ H]]
  end; [left | right]; exact H.
Qed.

(** On arrays of equal length the means are those of the valid pairs,
    dividing by their number. *)
Lemma pearson_over_valid_pairs (x y : list float) :
  length x = length y ->
  let pairs := validPairs x y in
  let s := sums_loop (meanOverN (map fst pairs)) (meanOverN (map snd pairs))
                     (map fst pairs) (map snd pairs) in
  let denominator := JS.Math_sqrt (sumSquaredX s * sumSquaredY s) in
  (length pairs < 2 -> calculatePearsonCorrelation x y = 0) /\
  (2 <= length pairs -> JS.strict_eq denominator 0 = true ->
   calculatePearsonCorrelation x y = 0) /\
  (2 <= length pairs -> JS.strict_eq denominator 0 = false ->
   calculatePearsonCorrelation x y = clamp (numerator s / denominator)).
Proof.
  intros E pairs s denominator.
  assert (length pairs < 2 -> calculatePearsonCorrelation x y = 0) as Hshort.
  { intros Hlt. unfold calculatePearsonCorrelation.
    destruct (negb _ || _); [reflexivity|].
    fold pairs. apply Nat.ltb_lt in Hlt. now rewrite Hlt. }
  split; [exact Hshort|].
  assert (2 <= length pairs ->
          calculatePearsonCorrelation x y
          = if JS.strict_eq denominator 0 then 0
            else clamp (numerator s / denominator)) as Hlong.
  { intros Hge. unfold calculatePearsonCorrelation.
    rewrite E, Nat.eqb_refl. cbn [negb orb].
    destruct (Nat.eqb (length y) 0) eqn:E0.
    - exfalso. apply Nat.eqb_eq in E0.
      assert (length pairs <= length x) as Hle.
      { unfold pairs, validPairs.
        etransitivity; [apply filter_length_le|].
        rewrite length_combine. lia. }
      lia.
    - fold pairs. rewrite (proj2 (Nat.ltb_ge _ _) Hge).
      assert (forall f : float * float -> float,
                (forall p, validPair p = true -> validNumber (f p) = true) ->
                calculateAverage (map f pairs) = meanOverN (map f pairs)) as Hm.
      { intros f Hf. apply average_of_finite.
        - destruct pairs; [cbn in Hge; lia | discriminate].
        - apply Forall_map, Forall_forall. intros p Hp. apply Hf.
          unfold pairs, validPairs in Hp. now apply filter_In in Hp. }
      rewrite (Hm fst), (Hm snd).
      + reflexivity.
      + intros p Hp. unfold validPair in Hp. now apply andb_true_iff in Hp.
      + intros p Hp. unfold validPair in Hp. now apply andb_true_iff in Hp. }
  split; intros Hge Hd; rewrite (Hlong Hge), Hd; reflexivity.
Qed.

Lemma combine_fst_snd {A B : Type} (l : list (A * B)) :
  combine (map fst l) (map snd l) = l.
Proof.
  induction l as [|[a b] l IH]; cbn; [reflexivity | now rewrite IH].
Qed.

Lemma sums_from (meanX meanY : float) (pairs : list (float * float))
    (n sx sy : float) :
  fold_left (sums_step meanX meanY) pairs (mkSums n sx sy)
  = mkSums
      (fold_left (fun acc term => acc + term)
         (map (fun p => (fst p - meanX) * (snd p - meanY)) pairs) n)
      (fold_left (fun acc term => acc + term)
         (map (fun p => (fst p - meanX) * (fst p - meanX)) pairs) sx)
      (fold_left (fun acc term => acc + term)
         (map (fun p => (snd p - meanY) * (snd p - meanY)) pairs) sy).
Proof.
  revert n sx sy. induction pairs as [|p pairs IH]; intros n sx sy; cbn;
    [reflexivity|].
  unfold sums_step at 2. cbn [numerator sumSquaredX sumSquaredY]. apply IH.
Qed.

Lemma sums_loop_sigma (pairs : list (float * float)) :
  sums_loop (meanOverN (map fst pairs)) (meanOverN (map snd pairs))
            (map fst pairs) (map snd pairs)
  = mkSums (productSum pairs) (squareSumX pairs) (squareSumY pairs).
Proof.
  unfold sums_loop. rewrite combine_fst_snd. apply sums_from.
Qed.

(** X4: on arrays of equal length [calculatePearsonCorrelation] is
    Pearson's formula on the valid pairs: fewer than 2 valid pairs give
    0; otherwise the single loop of the source accumulates the three sums
    of the formula, a zero denominator gives 0, and the quotient of the
    formula is returned, clamped to [-1, 1]. *)
Theorem pearson_clamped_formula (x y : list float) :
  length x = length y ->
  let pairs := validPairs x y in
  (length pairs < 2 -> calculatePearsonCorrelation x y = 0) /\
  (2 <= length pairs ->
   calculatePearsonCorrelation x y
   = if JS.strict_eq (JS.Math_sqrt (squareSumX pairs * squareSumY pairs)) 0
     then 0
     else clamp (pearsonFormula pairs)).
Proof.
  intros E pairs.
  destruct (pearson_over_valid_pairs x y E) as (Hshort & Hzero & Hquot).
  fold pairs in Hshort, Hzero, Hquot.
  rewrite sums_loop_sigma in Hzero, Hquot.
  cbn [numerator sumSquaredX sumSquaredY] in Hzero, Hquot.
  split; [exact Hshort|].
  intros Hge. unfold pearsonFormula.
  destruct (JS.strict_eq _ 0) eqn:D; [now apply Hzero | now apply Hquot].
Qed.

Lemma pearson_clamped_formula_witness :
  let pairs := validPairs [100; 102; 101] [200; 204; 202] in
  (length pairs < 2 ->
   calculatePearsonCorrelation [100; 102; 101] [200; 204; 202] = 0) /\
  (2 <= length pairs ->
   calculatePearsonCorrelation [100; 102; 101] [200; 204; 202]
   = if JS.strict_eq (JS.Math_sqrt (squareSumX pairs * squareSumY pairs)) 0
     then 0
     else clamp (pearsonFormula pairs)).
Proof.
  apply (pearson_clamped_formula [100; 102; 101] [200; 204; 202]). reflexivity.
Defined.

Lemma buildAligned_fresh (data : StockData) (common tickers : list string)
    (acc : JS.record (list float)) :
  NoDup (JS.keys acc ++ tickers) ->
  (forall t, In t tickers -> In t (JS.keys data)) ->
  fold_left
    (fun acc ticker =>
       match acc, JS.get data ticker with
       | Some a, Some points => Some (JS.set a ticker (alignedPrices points common))
       | _, _ => None
       end)
    tickers (Some acc)
  = Some (acc ++ map (fun t => (t, alignedPrices (seriesOf data t) common)) tickers).
Proof.
  revert acc. induction tickers as [|t tickers IH]; intros acc ND Hin; cbn.
  - now rewrite app_nil_r.
  - assert (~ In t (JS.keys acc)) as Ht.
    { apply NoDup_remove_2 in ND. rewrite in_app_iff in ND. tauto. }
    unfold seriesOf at 1.
    destruct (get_of_key data t) as [points ->]; [apply Hin; now left|].
    rewrite set_fresh by assumption. rewrite IH.
    + now rewrite <- app_assoc.
    + unfold JS.keys in *. rewrite map_app, <- app_assoc. exact ND.
    + intros t' Ht'. apply Hin. now right.
Qed.

Lemma buildAligned_entries (data : StockData) (common : list string) :
  wellFormed data ->
  buildAligned data common (JS.keys data)
  = Some (map (fun kv => (fst kv, alignedPrices (snd kv) common)) data).
Proof.
  intros WF. unfold buildAligned.
  etransitivity.
  - apply (buildAligned_fresh data common (JS.keys data) []); [exact WF | auto].
  - cbn [app]. f_equal. unfold JS.keys. rewrite map_map. apply map_ext_in.
    intros [t points] Hin. cbn. unfold seriesOf.
    now rewrite (In_get data t points WF Hin).
Qed.

(** X5: when no series repeats a timestamp, every aligned vector of the
    engine has exactly one entry per common timestamp. *)
Lemma aligned_vectors_have_dataPoints (data : StockData) :
  wellFormed data ->
  (forall ticker points, In (ticker, points) data -> NoDup (map timestamp points)) ->
  exists alignedData,
    buildAligned data (commonTimestampsOf data (JS.keys data)) (JS.keys data)
      = Some alignedData /\
    forall ticker v, In (ticker, v) alignedData ->
      length v = length (commonTimestampsOf data (JS.keys data)).
Proof.
  intros WF Huniq. eexists. split; [now apply buildAligned_entries|].
  intros ticker v Hin. apply in_map_iff in Hin.
  destruct Hin as ([t points] & [= <- <-] & Hin). cbn [fst snd].
  rewrite alignedPrices_full_length.
  - apply length_map.
  - now apply (Huniq t).
  - intros ts Hts.
    assert (JS.keys data <> []) as Hne by (destruct data; [easy | discriminate]).
    apply commonTimestamps_In in Hts; [|assumption].
    destruct (Hts t) as (points' & G & F).
    + change t with (fst (t, points)). now apply in_map.
    + rewrite (In_get data t points WF Hin) in G. now injection G as <-.
Qed.

Lemma aligned_vectors_have_dataPoints_witness :
  exists alignedData,
    buildAligned scenario (commonTimestampsOf scenario (JS.keys scenario))
                 (JS.keys scenario) = Some alignedData /\
    forall ticker v, In (ticker, v) alignedData ->
      length v = length (commonTimestampsOf scenario (JS.keys scenario)).
Proof.
  apply (aligned_vectors_have_dataPoints scenario).
  - distinct_strings.
  - intros ticker points [[= <- <-] | [[= <- <-] | []]]; distinct_strings.
Defined.

(* ================================================================= *)
(** ** Cleaning: only the finite entries count *)

Lemma filter_twice {A : Type} (f : A -> bool) (l : list A) :
  filter f (filter f l) = filter f l.
Proof.
  apply filter_all, Forall_forall. intros x Hx. now apply filter_In in Hx.
Qed.

Lemma average_of_cleaned (numbers : list float) :
  calculateAverage numbers = calculateAverage (filter validNumber numbers).
Proof.
  unfold calculateAverage. rewrite filter_twice.
  destruct numbers as [|n0 numbers]; [reflexivity|].
  cbn [length Nat.eqb].
  destruct (filter validNumber (n0 :: numbers)); reflexivity.
Qed.

(** X6: [calculateAverage] depends only on the finite entries of its
    argument, in their order: non-finite entries never change it. *)
Theorem average_ignores_non_finite (a b : list float) :
  filter validNumber a = filter validNumber b ->
  calculateAverage a = calculateAverage b.
Proof.
  intros E. now rewrite (average_of_cleaned a), (average_of_cleaned b), E.
Qed.

Lemma average_ignores_non_finite_witness :
  calculateAverage [nan; 3; infinity; 5] = calculateAverage [3; neg_infinity; 5].
Proof.
  apply (average_ignores_non_finite [nan; 3; infinity; 5] [3; neg_infinity; 5]).
  reflexivity.
Defined.

Lemma deviation_of_cleaned (numbers : list float) :
  calculateStandardDeviation numbers
  = calculateStandardDeviation (filter validNumber numbers).
Proof.
  unfold calculateStandardDeviation. rewrite filter_twice.
  destruct numbers as [|n0 numbers]; [reflexivity|].
  cbn [length Nat.eqb].
  destruct (filter validNumber (n0 :: numbers)); reflexivity.
Qed.

(** X7: [calculateStandardDeviation] depends only on the finite entries
    of its argument, in their order. *)
Theorem deviation_ignores_non_finite (a b : list float) :
  filter validNumber a = filter validNumber b ->
  calculateStandardDeviation a = calculateStandardDeviation b.
Proof.
  intros E. now rewrite (deviation_of_cleaned a), (deviation_of_cleaned b), E.
Qed.

Lemma deviation_ignores_non_finite_witness :
  calculateStandardDeviation [nan; 3; infinity; 5]
  = calculateStandardDeviation [3; neg_infinity; 5].
Proof.
  apply (deviation_ignores_non_finite [nan; 3; infinity; 5] [3; neg_infinity; 5]).
  reflexivity.
Defined.

Lemma pearson_of_pairs (x y : list float) :
  length x = length y ->
  calculatePearsonCorrelation x y = pearsonOfPairs (validPairs x y).
Proof.
  intros E. unfold calculatePearsonCorrelation, pearsonOfPairs.
  rewrite E, Nat.eqb_refl. cbn [negb orb].
  destruct y as [|y0 y]; [|reflexivity].
  destruct x; [reflexivity | discriminate].
Qed.

(** X8: on arrays of equal length [calculatePearsonCorrelation] depends
    only on the index pairs whose two elements are finite, in their order:
    a pair with a non-finite member never changes the result. *)
Theorem pearson_ignores_invalid_pairs (x y x' y' : list float) :
  length x = length y -> length x' = length y' ->
  validPairs x y = validPairs x' y' ->
  calculatePearsonCorrelation x y = calculatePearsonCorrelation x' y'.
Proof.
  intros E E' H. now rewrite (pearson_of_pairs x y E), (pearson_of_pairs x' y' E'), H.
Qed.

Lemma pearson_ignores_invalid_pairs_witness :
  calculatePearsonCorrelation [1; nan; 2; 4; 7] [2; 5; 3; infinity; 9]
  = calculatePearsonCorrelation [1; 2; 7] [2; 3; 9].
Proof.
  apply (pearson_ignores_invalid_pairs
           [1; nan; 2; 4; 7] [2; 5; 3; infinity; 9] [1; 2; 7] [2; 3; 9]);
    reflexivity.
Defined.

(* ================================================================= *)
(** ** More on the engine's result *)

Lemma buildMatrix_entry_inv (a : JS.record (list float)) (tickers : list string)
    (i j : nat) (v : float) :
  entry (buildMatrix a tickers) i j = Some v -> v = matrixEntry a tickers i j.
Proof.
  unfold entry, buildMatrix. rewrite nth_error_map, nth_error_seq.
  destruct (Nat.ltb i (length tickers)); [|discriminate]. cbn.
  rewrite nth_error_map, nth_error_seq.
  destruct (Nat.ltb j (length tickers)); [|discriminate]. cbn.
  now intros [= <-].
Qed.

Lemma pearson_unitOrNaN (x y : list float) :
  unitOrNaN (calculatePearsonCorrelation x y).
Proof.
  unfold unitOrNaN, calculatePearsonCorrelation.
  destruct (negb _ || _); [right; split; reflexivity|].
  destruct (Nat.ltb _ 2); [right; split; reflexivity|].
  destruct (JS.strict_eq _ 0); [right; split; reflexivity|].
  match goal with
  | |- context [clamp ?c] => destruct (clamp_range c) as [[_ H] | [_ H]]
  end; [left | right]; exact H.
Qed.

Lemma matrixEntry_range (a : JS.record (list float)) (tickers : list string)
    (i j : nat) :
  unitOrNaN (matrixEntry a tickers i j).
Proof.
  unfold matrixEntry. destruct (Nat.eqb i j).
  - right. split; reflexivity.
  - apply pearson_unitOrNaN.
Qed.

(** X9: every entry of the matrix returned by the engine is NaN or lies
    in [-1, 1]. *)
Theorem matrix_entries_unit_or_nan (data : StockData) (r : CorrelationMatrix)
    (i j : nat) (v : float) :
  calculateCorrelationMatrix data = Some r ->
  entry (matrix r) i j = Some v ->
  unitOrNaN v.
Proof.
  intros Hr Hv.
  destruct (engine_cases data) as [H | (a & _ & _ & _ & H)];
    rewrite H in Hr; injection Hr as <-; cbn [matrix emptyResult] in Hv.
  - unfold entry in Hv. destruct i; discriminate.
  - apply buildMatrix_entry_inv in Hv. subst v. apply matrixEntry_range.
Qed.

Lemma matrix_entries_unit_or_nan_witness : unitOrNaN 1.
Proof.
  apply (matrix_entries_unit_or_nan scenario
           (mkCorrelationMatrix
              [[1; 1]; [1; 1]]
              [("AAPL"%string, calculateStandardDeviation [100; 102; 101]);
               ("GOOGL"%string, calculateStandardDeviation [200; 204; 202])]
              3)
           0 1 1).
  - apply scenario_result.
  - reflexivity.
Defined.

Lemma common_within_series (data : StockData) (ticker : string)
    (points : list StockPrice) :
  JS.get data ticker = Some points ->
  length (commonTimestampsOf data (JS.keys data)) <= length points.
Proof.
  intros G.
  assert (In ticker (JS.keys data)) as Hk.
  { apply get_In in G. change ticker with (fst (ticker, points)). now apply in_map. }
  assert (JS.keys data <> []) as Hne by (intros K; rewrite K in Hk; easy).
  rewrite <- (length_map timestamp points).
  apply NoDup_incl_length; [apply commonTimestamps_NoDup|].
  intros ts Hts. apply commonTimestamps_In in Hts; [|assumption].
  destruct (Hts ticker Hk) as (points' & G' & p & Hp & E & _).
  rewrite G in G'. injection G' as <-. rewrite <- E. now apply in_map.
Qed.

(** X10: [dataPoints] never exceeds the number of points of any input
    series. *)
Theorem dataPoints_at_most_series_length (data : StockData) (r : CorrelationMatrix)
    (ticker : string) (points : list StockPrice) :
  calculateCorrelationMatrix data = Some r ->
  JS.get data ticker = Some points ->
  dataPoints r <= length points.
Proof.
  intros Hr G.
  destruct (engine_cases data) as [H | (a & _ & _ & _ & H)];
    rewrite H in Hr; injection Hr as <-; cbn [dataPoints emptyResult].
  - apply Nat.le_0_l.
  - now apply (common_within_series data ticker).
Qed.

Lemma dataPoints_at_most_series_length_witness :
  2 <= length [pt "t1" nan; pt "t1" 5; pt "t2" 6].
Proof.
  apply (dataPoints_at_most_series_length duplicated
           (mkCorrelationMatrix
              [[1; 0]; [0; 1]]
              [("A"%string, calculateStandardDeviation [6]);
               ("B"%string, calculateStandardDeviation [1; 2])]
              2)
           "A"%string [pt "t1" nan; pt "t1" 5; pt "t2" 6]).
  - vm_compute. reflexivity.
  - reflexivity.
Defined.

(* ================================================================= *)
(** ** Union mode: which tickers are retained *)

Lemma alignStockData_as_filter (stocksData : StockData) :
  wellFormed stocksData ->
  alignStockData stocksData
  = filter longEnough
      (map (fun kv =>
              (fst kv,
               scanUnion (snd kv)
                 (JS.sort (collectTimestamps stocksData (JS.keys stocksData)))))
           stocksData).
Proof.
  intros WF. unfold alignStockData.
  destruct (Nat.eqb (length (JS.keys stocksData)) 0) eqn:E0.
  - apply Nat.eqb_eq, length_zero_iff_nil in E0.
    destruct stocksData; [reflexivity | discriminate].
  - set (union := JS.sort (collectTimestamps stocksData (JS.keys stocksData))).
    rewrite (alignTickers_from stocksData union (JS.keys stocksData) [])
      by exact WF.
    cbn [app]. rewrite scan_by_entry by exact WF.
    set (built := map _ stocksData).
    apply (dropShort_from [] built). cbn [app].
    subst built. rewrite keys_scan. exact WF.
Qed.

Lemma stampedAt_In (points : list StockPrice) (ts : string) :
  stampedAt points ts = true <-> In ts (map timestamp points).
Proof.
  unfold stampedAt. rewrite existsb_exists, in_map_iff.
  split; intros (p & H1 & H2); exists p.
  - apply String.eqb_eq in H2. auto.
  - split; [assumption | now apply String.eqb_eq].
Qed.

Lemma scanUnion_length_filter (points : list StockPrice) (union : list string) :
  length (scanUnion points union) = length (filter (stampedAt points) union).
Proof.
  unfold scanUnion. induction union as [|ts union IH]; cbn; [reflexivity|].
  rewrite length_app, IH.
  destruct (findPoint points ts) as [p|] eqn:F.
  - destruct (findPoint_Some points ts p F) as [Hp E].
    assert (stampedAt points ts = true) as ->.
    { apply stampedAt_In. rewrite <- E. now apply in_map. }
    reflexivity.
  - assert (stampedAt points ts = false) as ->.
    { destruct (stampedAt points ts) eqn:S; [|reflexivity].
      apply stampedAt_In, in_map_iff in S. destruct S as (p & E & Hp).
      exfalso. apply (proj1 (findPoint_None points ts) F). eauto. }
    reflexivity.
Qed.

Lemma scanUnion_counts_distinct (points : list StockPrice) (union : list string) :
  NoDup union ->
  (forall p, In p points -> In (timestamp p) union) ->
  length (scanUnion points union) = length (distinctTimestamps points).
Proof.
  intros ND Hin. rewrite scanUnion_length_filter.
  apply Permutation_length, NoDup_Permutation.
  - now apply NoDup_filter.
  - apply NoDup_nodup.
  - intros ts. unfold distinctTimestamps.
    rewrite filter_In, nodup_In, stampedAt_In. split; [tauto|].
    intros H. split; [|assumption].
    apply in_map_iff in H. destruct H as (p & <- & Hp). now apply Hin.
Qed.

Lemma union_covers_series (stocksData : StockData) (ticker : string)
    (points : list StockPrice) (p : StockPrice) :
  wellFormed stocksData -> In (ticker, points) stocksData -> In p points ->
  In (timestamp p) (JS.sort (collectTimestamps stocksData (JS.keys stocksData))).
Proof.
  intros WF Hin Hp. apply sort_In, collectTimestamps_In.
  exists ticker, points, p. repeat split; [|now apply In_get|assumption].
  change ticker with (fst (ticker, points)). now apply in_map.
Qed.

(** X11: in union mode a retained ticker has a series with at least two
    distinct timestamps, and a ticker other than [__proto__] whose series
    has at least two distinct timestamps is retained; a retained vector
    has one entry per distinct timestamp of the series (repeated
    timestamps count once). *)
Theorem alignStockData_keeps_two_distinct (stocksData : StockData) :
  wellFormed stocksData ->
  (forall ticker points, In (ticker, points) stocksData ->
     (In ticker (JS.keys (alignStockData stocksData)) ->
      2 <= length (distinctTimestamps points)) /\
     (ticker <> "__proto__"%string ->
      2 <= length (distinctTimestamps points) ->
      In ticker (JS.keys (alignStockData stocksData)))) /\
  (forall ticker v, In (ticker, v) (alignStockData stocksData) ->
     exists points, In (ticker, points) stocksData /\
                    length v = length (distinctTimestamps points)).
Proof.
  intros WF. rewrite (alignStockData_as_filter stocksData WF).
  set (union := JS.sort (collectTimestamps stocksData (JS.keys stocksData))).
  assert (NoDup union) as NDU by apply sort_NoDup, collectTimestamps_NoDup.
  assert (forall ticker points, In (ticker, points) stocksData ->
            length (scanUnion points union) = length (distinctTimestamps points))
    as Hlen.
  { intros ticker points Hin. apply scanUnion_counts_distinct; [exact NDU|].
    intros p Hp. now apply (union_covers_series stocksData ticker points). }
  split.
  - intros ticker points Hin. rewrite <- (Hlen ticker points Hin).
    unfold JS.keys. rewrite in_map_iff. split.
    + intros ([t v] & E & H). cbn in E. subst t.
      apply filter_In in H. destruct H as [H L].
      apply in_map_iff in H. destruct H as ([t' points'] & [= <- <-] & Hin').
      cbn [fst snd] in *.
      assert (points' = points) as ->.
      { apply (In_get _ _ _ WF) in Hin, Hin'. congruence. }
      unfold longEnough in L. cbn [snd] in L. now apply Nat.leb_le in L.
    + intros _ L. exists (ticker, scanUnion points union). split; [reflexivity|].
      apply filter_In. split.
      * apply in_map_iff. exists (ticker, points). auto.
      * unfold longEnough. cbn [snd]. now apply Nat.leb_le.
  - intros ticker v H. apply filter_In in H. destruct H as [H _].
    apply in_map_iff in H. destruct H as ([t points] & [= <- <-] & Hin).
    cbn [fst snd]. exists points. split; [assumption | now apply (Hlen t)].
Qed.

Lemma alignStockData_keeps_two_distinct_witness :
  (forall ticker points, In (ticker, points) duplicated ->
     (In ticker (JS.keys (alignStockData duplicated)) ->
      2 <= length (distinctTimestamps points)) /\
     (ticker <> "__proto__"%string ->
      2 <= length (distinctTimestamps points) ->
      In ticker (JS.keys (alignStockData duplicated)))) /\
  (forall ticker v, In (ticker, v) (alignStockData duplicated) ->
     exists points, In (ticker, points) duplicated /\
                    length v = length (distinctTimestamps points)).
Proof.
  apply (alignStockData_keeps_two_distinct duplicated). distinct_strings.
Defined.

(* ================================================================= *)
(** ** Chart preparation: sampling of the timestamps *)

Open Scope nat_scope.

Lemma filter_index_app {A : Type} (keep : nat -> bool) (i : nat) (l : list A) (x : A) :
  filter_index keep i (l ++ [x])
  = filter_index keep i l ++ (if keep (i + length l) then [x] else []).
Proof.
  revert i. induction l as [|y l IH]; intros i; cbn.
  - rewrite Nat.add_0_r. now destruct (keep i).
  - rewrite IH, Nat.add_succ_comm. now destruct (keep i).
Qed.

Lemma filter_index_In {A : Type} (keep : nat -> bool) (i : nat) (l : list A) (x : A) :
  In x (filter_index keep i l) -> In x l.
Proof.
  revert i. induction l as [|y l IH]; intros i; cbn; [easy|].
  destruct (keep i); cbn; intuition eauto.
Qed.

Lemma filter_index_NoDup {A : Type} (keep : nat -> bool) (i : nat) (l : list A) :
  NoDup l -> NoDup (filter_index keep i l).
Proof.
  revert i. induction l as [|y l IH]; intros i ND; cbn; [constructor|].
  inversion ND as [|? ? Hy ND']; subst.
  destruct (keep i); [constructor|]; auto.
  intros H. apply Hy. now apply filter_index_In in H.
Qed.

Lemma filter_index_sorted {A : Type} (R : A -> A -> Prop) (keep : nat -> bool)
    (i : nat) (l : list A) :
  StronglySorted R l -> StronglySorted R (filter_index keep i l).
Proof.
  revert i. induction l as [|y l IH]; intros i S; cbn; [constructor|].
  inversion S as [|? ? S' Hy]; subst.
  destruct (keep i); [constructor|]; auto.
  rewrite Forall_forall in *. intros x Hx. apply Hy.
  now apply filter_index_In in Hx.
Qed.

Lemma ceil_step (len step : nat) :
  1 <= step ->
  (S len + step - 1) / step
  = (len + step - 1) / step + (if Nat.eqb (len mod step) 0 then 1 else 0).
Proof.
  intros Hs.
  pose proof (Nat.div_mod_eq len step) as E.
  pose proof (Nat.mod_upper_bound len step ltac:(lia)) as Hr.
  set (q := len / step) in *. set (r := len mod step) in *.
  destruct (Nat.eqb_spec r 0) as [R0 | R0].
  - rewrite <- (Nat.div_unique (S len + step - 1) step (q + 1) 0) by nia.
    rewrite <- (Nat.div_unique (len + step - 1) step q (step - 1)) by nia.
    reflexivity.
  - rewrite <- (Nat.div_unique (S len + step - 1) step (q + 1) r) by nia.
    rewrite <- (Nat.div_unique (len + step - 1) step (q + 1) (r - 1)) by nia.
    lia.
Qed.

Lemma everyNth_length (step : nat) (l : list string) :
  1 <= step -> length (everyNth step l) = (length l + step - 1) / step.
Proof.
  intros Hs. unfold everyNth. induction l as [|x l IH] using rev_ind.
  - cbn. symmetry. apply Nat.div_small. lia.
  - rewrite filter_index_app, !length_app, IH. cbn [length Nat.add].
    replace (length l + 1 + step - 1) with (S (length l) + step - 1) by lia.
    rewrite ceil_step by assumption.
    destruct (Nat.eqb (length l mod step) 0); cbn; lia.
Qed.

Lemma filter_index_all {A : Type} (keep : nat -> bool) (i : nat) (l : list A) :
  (forall j, keep j = true) -> filter_index keep i l = l.
Proof.
  intros H. revert i. induction l as [|x l IH]; intros i; cbn; [reflexivity|].
  now rewrite H, IH.
Qed.

Lemma everyNth_one (l : list string) : everyNth 1 l = l.
Proof.
  apply filter_index_all. intros j. now rewrite Nat.mod_1_r.
Qed.

Lemma samplingStep_low (len maxPoints : nat) :
  len < 2 * maxPoints -> samplingStep len maxPoints = 1.
Proof.
  intros H. unfold samplingStep.
  destruct maxPoints as [|m]; [lia|].
  assert (len / S m < 2) by (apply Nat.Div0.div_lt_upper_bound; lia).
  lia.
Qed.

Lemma sampled_below_twice (len maxPoints : nat) :
  1 <= maxPoints ->
  (len + samplingStep len maxPoints - 1) / samplingStep len maxPoints
  < 2 * maxPoints.
Proof.
  intros Hm. unfold samplingStep.
  pose proof (Nat.mul_succ_div_gt len maxPoints ltac:(lia)) as Hq.
  set (q := len / maxPoints) in *.
  apply Nat.Div0.div_lt_upper_bound.
  destruct q as [|q]; cbn [Nat.max]; nia.
Qed.

Lemma maxDataPoints_positive (isMobile isTablet : bool) :
  1 <= maxDataPoints isMobile isTablet.
Proof. destruct isMobile, isTablet; cbn; lia. Qed.

(** X12: the chart plots fewer than twice [maxDataPoints] timestamps
    (not at most [maxDataPoints]), and it plots every timestamp when
    there are fewer than twice [maxDataPoints] of them. *)
Theorem chart_sampling_bound (data : StockData) (selectedStocks : list string)
    (isMobile isTablet : bool) :
  length (filteredTimestamps data selectedStocks isMobile isTablet)
    < 2 * maxDataPoints isMobile isTablet /\
  (length (JS.sort (collectTimestamps data selectedStocks))
     < 2 * maxDataPoints isMobile isTablet ->
   filteredTimestamps data selectedStocks isMobile isTablet
   = JS.sort (collectTimestamps data selectedStocks)).
Proof.
  unfold filteredTimestamps. split.
  - rewrite everyNth_length.
    + apply sampled_below_twice, maxDataPoints_positive.
    + unfold samplingStep. lia.
  - intros H. rewrite samplingStep_low by assumption. apply everyNth_one.
Qed.

Lemma chart_sampling_bound_witness :
  length (filteredTimestamps gapped ["A"; "C"]%string true false)
    < 2 * maxDataPoints true false /\
  (length (JS.sort (collectTimestamps gapped ["A"; "C"]%string))
     < 2 * maxDataPoints true false ->
   filteredTimestamps gapped ["A"; "C"]%string true false
   = JS.sort (collectTimestamps gapped ["A"; "C"]%string)).
Proof. apply (chart_sampling_bound gapped ["A"; "C"]%string true false). Defined.

(** X13: the plotted timestamps are ascending and pairwise distinct, each
    of them is the timestamp of a point of a selected ticker, and the
    earliest timestamp of the selected tickers is always plotted first. *)
Theorem chart_timestamps_from_data (data : StockData) (selectedStocks : list string)
    (isMobile isTablet : bool) :
  ascending (filteredTimestamps data selectedStocks isMobile isTablet) /\
  NoDup (filteredTimestamps data selectedStocks isMobile isTablet) /\
  (forall ts, In ts (filteredTimestamps data selectedStocks isMobile isTablet) ->
              seenAt data selectedStocks ts) /\
  hd_error (filteredTimestamps data selectedStocks isMobile isTablet)
  = hd_error (JS.sort (collectTimestamps data selectedStocks)).
Proof.
  unfold filteredTimestamps, everyNth. repeat split.
  - apply filter_index_sorted, sort_ascending.
  - apply filter_index_NoDup, sort_NoDup, collectTimestamps_NoDup.
  - intros ts H. apply filter_index_In in H.
    apply (proj1 (sort_In _ _)) in H.
    apply (proj1 (collectTimestamps_In _ _ _)) in H. exact H.
  - destruct (JS.sort (collectTimestamps data selectedStocks)); cbn; [reflexivity|].
    now rewrite Nat.Div0.mod_0_l.
Qed.

Lemma chart_timestamps_from_data_witness :
  ascending (filteredTimestamps gapped ["A"; "C"]%string true false) /\
  NoDup (filteredTimestamps gapped ["A"; "C"]%string true false) /\
  (forall ts, In ts (filteredTimestamps gapped ["A"; "C"]%string true false) ->
              seenAt gapped ["A"; "C"]%string ts) /\
  hd_error (filteredTimestamps gapped ["A"; "C"]%string true false)
  = hd_error (JS.sort (collectTimestamps gapped ["A"; "C"]%string)).
Proof. apply (chart_timestamps_from_data gapped ["A"; "C"]%string true false). Defined.

Open Scope float_scope.

(* ================================================================= *)
(** ** Chart preparation: the averages *)

Lemma get_set {V : Type} (r : JS.record V) (k k' : string) (v : V) :
  JS.get (JS.set r k v) k' = if String.eqb k k' then Some v else JS.get r k'.
Proof.
  induction r as [|[k0 v0] r IH]; cbn.
  - reflexivity.
  - destruct (String.eqb_spec k0 k) as [->|Hk]; cbn.
    + now destruct (String.eqb k k').
    + rewrite IH. destruct (String.eqb_spec k0 k') as [->|]; [|reflexivity].
      destruct (String.eqb_spec k k'); [congruence | reflexivity].
Qed.

Lemma averages_from (data : StockData) (selectedStocks : list string)
    (acc : JS.record float) (ticker : string) :
  JS.get
    (fold_left
       (fun avgs t =>
          match JS.get data t with
          | Some points => JS.set avgs t (calculateAverage (map price points))
          | None => avgs
          end)
       selectedStocks acc)
    ticker
  = match JS.get data ticker with
    | Some points =>
        if existsb (String.eqb ticker) selectedStocks
        then Some (calculateAverage (map price points))
        else JS.get acc ticker
    | None => JS.get acc ticker
    end.
Proof.
  revert acc. induction selectedStocks as [|t sel IH]; intros acc; cbn [fold_left existsb].
  - now destruct (JS.get data ticker).
  - rewrite IH. destruct (JS.get data ticker) as [points|] eqn:G.
    + destruct (existsb (String.eqb ticker) sel); [now rewrite orb_true_r|].
      rewrite orb_false_r.
      destruct (String.eqb_spec ticker t) as [<-|Hne].
      * rewrite G, get_set. now rewrite String.eqb_refl.
      * destruct (JS.get data t); [|reflexivity].
        rewrite get_set. destruct (String.eqb_spec t ticker); [congruence | reflexivity].
    + destruct (JS.get data t) as [points'|] eqn:G'; [|reflexivity].
      rewrite get_set. destruct (String.eqb_spec t ticker); [congruence | reflexivity].
Qed.

(** X14: when no selected ticker is a name that [data] has only by
    inheritance, the [averages] memo has, under every key other than
    [__proto__], an entry exactly for the selected tickers that have a
    series in [data], and the entry of such a ticker is
    [calculateAverage] of its prices, however often and wherever the
    ticker is selected. *)
Theorem averages_lookup (data : StockData) (selectedStocks : list string)
    (ticker : string) :
  (forall t, In t selectedStocks -> In t JS.inherited -> In t (JS.keys data)) ->
  ticker <> "__proto__"%string ->
  JS.get (averages data selectedStocks) ticker
  = match JS.get data ticker with
    | Some points =>
        if existsb (String.eqb ticker) selectedStocks
        then Some (calculateAverage (map price points))
        else None
    | None => None
    end.
Proof. intros _ _. unfold averages. now rewrite averages_from. Qed.

Lemma averages_lookup_witness :
  JS.get (averages scenario ["AAPL"; "MSFT"; "AAPL"]%string) "AAPL"
    = Some (calculateAverage [100; 102; 101]) /\
  JS.get (averages scenario ["AAPL"; "MSFT"; "AAPL"]%string) "MSFT" = None.
Proof.
  assert (forall t, In t ["AAPL"; "MSFT"; "AAPL"]%string -> In t JS.inherited ->
                    In t (JS.keys scenario)) as Own.
  { intros t [<- | [<- | [<- | []]]] H; cbn in H;
      repeat (destruct H as [H | H]; [discriminate|]); destruct H. }
  split.
  - rewrite (averages_lookup scenario _ "AAPL" Own); [reflexivity | discriminate].
  - rewrite (averages_lookup scenario _ "MSFT" Own); [reflexivity | discriminate].
Defined.

(** X15: on an array of finite numbers the helper that the stand-alone
    StockChart declares for itself returns what [calculateAverage] of
    utils/calculations.ts returns. *)
Theorem localAverage_agrees_on_finite (numbers : list float) :
  Forall (fun x => JS.isFinite x = true) numbers ->
  localAverage numbers = calculateAverage numbers.
Proof.
  intros H. unfold localAverage, calculateAverage.
  rewrite (filter_all validNumber numbers H).
  destruct numbers; reflexivity.
Qed.

Lemma localAverage_agrees_on_finite_witness :
  localAverage [100; 102; 101] = calculateAverage [100; 102; 101].
Proof.
  apply (localAverage_agrees_on_finite [100; 102; 101]). repeat constructor.
Defined.

(* ================================================================= *)
(** ** Rounding never produces NaN *)

Section RoundingFacts.
Variables prec emax : Z.
Open Scope Z_scope.

Lemma shr_1_nonneg (mrs : SpecFloat.shr_record) :
  0 <= SpecFloat.shr_m mrs -> 0 <= SpecFloat.shr_m (SpecFloat.shr_1 mrs).
Proof.
  destruct mrs as [m r s]. cbn.
  destruct m as [|[p|p|]|[p|p|]]; cbn; lia.
Qed.

Lemma iter_shr_1_nonneg (p : positive) (mrs : SpecFloat.shr_record) :
  0 <= SpecFloat.shr_m mrs ->
  0 <= SpecFloat.shr_m (SpecFloat.iter_pos SpecFloat.shr_1 p mrs).
Proof.
  revert mrs. induction p as [p IH|p IH|]; intros mrs H; cbn.
  - apply IH, IH, shr_1_nonneg, H.
  - apply IH, IH, H.
  - apply shr_1_nonneg, H.
Qed.

Lemma shr_fexp_nonneg (m e : Z) (l : SpecFloat.location) :
  0 <= m -> 0 <= SpecFloat.shr_m (fst (SpecFloat.shr_fexp prec emax m e l)).
Proof.
  intros H. unfold SpecFloat.shr_fexp, SpecFloat.shr.
  assert (0 <= SpecFloat.shr_m (SpecFloat.shr_record_of_loc m l)) as H0
    by (destruct l as [|[ | | ]]; exact H).
  destruct (_ - e); cbn [fst]; auto using iter_shr_1_nonneg.
Qed.

Lemma round_nearest_even_nonneg (m : Z) (l : SpecFloat.location) :
  0 <= m -> 0 <= SpecFloat.round_nearest_even m l.
Proof.
  intros H. destruct l as [|[ | | ]]; cbn; try lia.
  destruct (Z.even m); lia.
Qed.

Lemma binary_round_aux_signed (s : bool) (m e : Z) (l : SpecFloat.location) :
  0 <= m -> signedSF s (SpecFloat.binary_round_aux prec emax s m e l).
Proof.
  intros H. unfold SpecFloat.binary_round_aux.
  pose proof (shr_fexp_nonneg m e l H) as H1.
  destruct (SpecFloat.shr_fexp prec emax m e l) as [mrs' e']. cbn [fst] in H1.
  pose proof (shr_fexp_nonneg _ e' SpecFloat.loc_Exact
                (round_nearest_even_nonneg _ (SpecFloat.loc_of_shr_record mrs') H1)) as H2.
  destruct (SpecFloat.shr_fexp prec emax _ e' SpecFloat.loc_Exact) as [mrs'' e''].
  cbn [fst] in H2.
  destruct (SpecFloat.shr_m mrs'') as [|p|p]; cbn; try reflexivity; [|lia].
  destruct (e'' <=? emax - prec); reflexivity.
Qed.

Lemma binary_round_signed (s : bool) (m : positive) (e : Z) :
  signedSF s (SpecFloat.binary_round prec emax s m e).
Proof.
  unfold SpecFloat.binary_round.
  destruct (SpecFloat.shl_align m e _) as [mz ez].
  apply binary_round_aux_signed. lia.
Qed.

End RoundingFacts.

Section OperationFacts.
Variables prec emax : Z.
Open Scope Z_scope.

Lemma signed_real (s : bool) (x : spec_float) : signedSF s x -> realSF x.
Proof. destruct x; cbn; auto. Qed.

Lemma signed_nonneg (x : spec_float) : signedSF false x -> nonnegSF x.
Proof. destruct x as [s|s| |s m e]; cbn; intros H; subst; auto. Qed.

Lemma nonneg_real (x : spec_float) : nonnegSF x -> realSF x.
Proof. destruct x as [s|[|]| |[|] m e]; cbn; auto. Qed.

Lemma binary_normalize_real (m e : Z) (sz : bool) :
  realSF (SpecFloat.binary_normalize prec emax m e sz).
Proof.
  destruct m; cbn; [exact I| |]; eapply signed_real, binary_round_signed.
Qed.

Lemma SFadd_real (x y : spec_float) :
  realSF x -> finiteSF y -> realSF (SpecFloat.SFadd prec emax x y).
Proof.
  destruct x as [sx|sx| |sx mx ex], y as [sy|sy| |sy my ey]; cbn; try tauto;
    intros _ _.
  - destruct sx, sy; exact I.
  - apply binary_normalize_real.
Qed.

Lemma SFadd_nonneg (x y : spec_float) :
  nonnegSF x -> nonnegSF y -> finiteSF y ->
  nonnegSF (SpecFloat.SFadd prec emax x y).
Proof.
  destruct x as [sx|[|]| |[|] mx ex], y as [sy|[|]| |[|] my ey]; cbn; try tauto;
    intros _ _ _.
  - destruct sx, sy; exact I.
  - apply signed_nonneg. cbn. apply binary_round_signed.
Qed.

Lemma SFsub_real (x y : spec_float) :
  finiteSF x -> finiteSF y -> realSF (SpecFloat.SFsub prec emax x y).
Proof.
  destruct x as [sx|sx| |sx mx ex], y as [sy|sy| |sy my ey]; cbn; try tauto;
    intros _ _.
  - destruct sx, sy; exact I.
  - apply binary_normalize_real.
Qed.

Lemma div_core_nonneg (m1 e1 e2 : Z) (m2 : positive) :
  0 <= m1 ->
  0 <= fst (fst (SpecFloat.SFdiv_core_binary prec emax m1 e1 (Zpos m2) e2)).
Proof.
  intros H. unfold SpecFloat.SFdiv_core_binary.
  set (s := _ - _ - _).
  set (m' := match s with Z0 => m1 | Zpos _ => Z.shiftl m1 s | Zneg _ => 0 end).
  assert (0 <= m') as Hm'.
  { subst m'. destruct s; [assumption | now apply Z.shiftl_nonneg | lia]. }
  pose proof (Z.div_pos m' (Zpos m2) Hm' ltac:(lia)) as Hq.
  unfold Z.div in Hq.
  destruct (Z.div_eucl m' (Zpos m2)) as [q r]. exact Hq.
Qed.

Lemma SFdiv_signed (sx sy : bool) (mx my : positive) (ex ey : Z) :
  signedSF (xorb sx sy)
    (SpecFloat.SFdiv prec emax (S754_finite sx mx ex) (S754_finite sy my ey)).
Proof.
  cbn [SpecFloat.SFdiv].
  pose proof (div_core_nonneg (Zpos mx) ex ey my ltac:(lia)) as H.
  destruct (SpecFloat.SFdiv_core_binary prec emax (Zpos mx) ex (Zpos my) ey)
    as [[mz ez] lz].
  cbn [fst] in H. now apply binary_round_aux_signed.
Qed.

Lemma SFdiv_real (x y : spec_float) :
  realSF x -> properSF y -> realSF (SpecFloat.SFdiv prec emax x y).
Proof.
  destruct x as [sx|sx| |sx mx ex], y as [sy|sy| |sy my ey]; try (cbn; tauto);
    intros _ _.
  eapply signed_real, SFdiv_signed.
Qed.

Lemma SFdiv_nonneg (x : spec_float) (m : positive) (e : Z) :
  nonnegSF x -> nonnegSF (SpecFloat.SFdiv prec emax x (S754_finite false m e)).
Proof.
  destruct x as [sx|[|]| |[|] mx ex]; try (cbn; tauto); intros _.
  apply signed_nonneg. apply (SFdiv_signed false false).
Qed.

Lemma SFmul_real (x y : spec_float) :
  realSF x -> properSF y -> realSF (SpecFloat.SFmul prec emax x y).
Proof.
  destruct x as [sx|sx| |sx mx ex], y as [sy|sy| |sy my ey]; cbn; try tauto;
    intros _ _.
  eapply signed_real, binary_round_aux_signed. lia.
Qed.

Lemma SFmul_square (x : spec_float) :
  realSF x -> nonnegSF (SpecFloat.SFmul prec emax x x).
Proof.
  destruct x as [[|]|[|]| |[|] mx ex]; cbn; try tauto; intros _;
    apply signed_nonneg;
    apply (binary_round_aux_signed prec emax false); lia.
Qed.

Lemma SFsqrt_nonneg (x : spec_float) :
  nonnegSF x -> nonnegSF (SpecFloat.SFsqrt prec emax x).
Proof.
  destruct x as [sx|[|]| |[|] mx ex]; cbn; try tauto; intros _.
  unfold SpecFloat.SFsqrt_core_binary.
  set (m' := match _ with Z0 => Zpos mx | Zpos _ => _ | Zneg _ => 0 end).
  pose proof (Z.sqrt_nonneg m') as Hq. rewrite <- Z.sqrtrem_sqrt in Hq.
  destruct (Z.sqrtrem m') as [q r]. cbn [fst] in Hq.
  apply signed_nonneg. now apply binary_round_aux_signed.
Qed.

End OperationFacts.

Section LengthAsNumber.
Open Scope Z_scope.

Lemma digits2_pos_iter (p k : positive) :
  SpecFloat.digits2_pos (Pos.iter xO p k) = (SpecFloat.digits2_pos p + k)%positive.
Proof.
  induction k as [|k IH] using Pos.peano_ind.
  - cbn. now rewrite Pos.add_1_r.
  - rewrite Pos.iter_succ. cbn. rewrite IH. lia.
Qed.

Lemma digits2_pos_bound (p : positive) (k : Z) :
  0 <= k -> Zpos p < 2 ^ k -> Zpos (SpecFloat.digits2_pos p) <= k.
Proof.
  revert k. induction p as [p IH|p IH|]; intros k Hk H; cbn [SpecFloat.digits2_pos].
  - assert (1 <= k) as Hk1.
    { destruct (Z.eq_dec k 0) as [->|]; [cbn in H; lia | lia]. }
    replace k with (Z.succ (k - 1)) in H by lia.
    rewrite Z.pow_succ_r in H by lia.
    specialize (IH (k - 1) ltac:(lia) ltac:(lia)). lia.
  - assert (1 <= k) as Hk1.
    { destruct (Z.eq_dec k 0) as [->|]; [cbn in H; lia | lia]. }
    replace k with (Z.succ (k - 1)) in H by lia.
    rewrite Z.pow_succ_r in H by lia.
    specialize (IH (k - 1) ltac:(lia) ltac:(lia)). lia.
  - destruct (Z.eq_dec k 0) as [->|]; [cbn in H; lia | lia].
Qed.

(** A canonical mantissa rounds to itself. *)
Lemma binary_round_aux_canonical (s : bool) (m : positive) (e : Z) :
  SpecFloat.fexp prec emax (Zpos (SpecFloat.digits2_pos m) + e) = e ->
  e <= emax - prec ->
  SpecFloat.binary_round_aux prec emax s (Zpos m) e SpecFloat.loc_Exact
  = S754_finite s m e.
Proof.
  intros Hc He. unfold SpecFloat.binary_round_aux, SpecFloat.shr_fexp.
  cbn [SpecFloat.Zdigits2 SpecFloat.shr_record_of_loc].
  rewrite Hc, Z.sub_diag. cbn [SpecFloat.shr SpecFloat.shr_m SpecFloat.loc_of_shr_record
                                 SpecFloat.round_nearest_even SpecFloat.Zdigits2
                                 SpecFloat.shr_record_of_loc].
  rewrite Hc, Z.sub_diag. cbn [SpecFloat.shr SpecFloat.shr_m].
  apply Z.leb_le in He. now rewrite He.
Qed.

Lemma binary_round_small (p : positive) :
  Zpos p < 2 ^ 53 ->
  exists m e, SpecFloat.binary_round prec emax false p 0 = S754_finite false m e.
Proof.
  intros H.
  pose proof (digits2_pos_bound p 53 ltac:(lia) H) as Hd.
  unfold SpecFloat.binary_round.
  assert (SpecFloat.fexp prec emax (Zpos (SpecFloat.digits2_pos p) + 0)
          = Zpos (SpecFloat.digits2_pos p) - 53) as Hf.
  { unfold SpecFloat.fexp, SpecFloat.emin, prec, emax. lia. }
  rewrite Hf. unfold SpecFloat.shl_align.
  destruct (Zpos (SpecFloat.digits2_pos p) - 53 - 0) as [|k|k] eqn:E; try lia.
  - eexists _, _. apply binary_round_aux_canonical.
    + unfold SpecFloat.fexp, SpecFloat.emin, prec, emax. lia.
    + unfold prec, emax. lia.
  - eexists _, _. apply binary_round_aux_canonical.
    + rewrite digits2_pos_iter.
      unfold SpecFloat.fexp, SpecFloat.emin, prec, emax. lia.
    + unfold prec, emax. lia.
Qed.

Lemma of_length_proper (n : nat) :
  (1 <= n)%nat -> arrayLength n ->
  exists m e, Prim2SF (JS.of_length n) = S754_finite false m e.
Proof.
  unfold arrayLength. intros H1 H2. unfold JS.of_length. rewrite of_uint63_spec.
  rewrite Uint63.of_Z_spec. rewrite Z.mod_small.
  - destruct (Z.of_nat n) as [|p|p] eqn:E; try lia.
    cbn [SpecFloat.binary_normalize]. apply binary_round_small.
    assert (2 ^ 32 < 2 ^ 53) by (apply Z.pow_lt_mono_r; lia). lia.
  - split; [lia|]. 
    assert (2 ^ 32 < Uint63.wB) by reflexivity. lia.
Qed.

End LengthAsNumber.

(* ================================================================= *)
(** ** What the statistics never return *)

Lemma real_not_nan (f : float) : realSF (Prim2SF f) -> is_nan f = false.
Proof.
  unfold Prim2SF. destruct (is_nan f); [intros [] | reflexivity].
Qed.

Lemma not_nan_real (f : float) : is_nan f = false -> realSF (Prim2SF f).
Proof.
  intros H. apply is_nan_false in H. destruct (Prim2SF f); cbn; auto.
Qed.

Lemma finite_SF (f : float) : JS.isFinite f = true -> finiteSF (Prim2SF f).
Proof.
  unfold JS.isFinite, is_finite. intros H.
  apply negb_true_iff, orb_false_iff in H. destruct H as [Hn Hi].
  apply not_nan_real in Hn.
  unfold is_infinity in Hi. rewrite FloatAxioms.eqb_spec, abs_spec in Hi.
  change (Prim2SF infinity) with (S754_infinity false) in Hi.
  destruct (Prim2SF f) as [s|s| |s m e]; cbn in *; try exact I; try contradiction.
  discriminate.
Qed.

Lemma proper_SF (f : float) :
  JS.isFinite f = true -> JS.strict_eq f 0 = false -> properSF (Prim2SF f).
Proof.
  intros Hf Hz. apply finite_SF in Hf.
  unfold JS.strict_eq in Hz. rewrite FloatAxioms.eqb_spec in Hz.
  change (Prim2SF 0) with (S754_zero false) in Hz.
  destruct (Prim2SF f) as [s|s| |s m e]; cbn in *; try exact I; try contradiction.
  discriminate.
Qed.

Lemma nonneg_leb (f : float) : nonnegSF (Prim2SF f) -> (0 <=? f) = true.
Proof.
  rewrite leb_spec. change (Prim2SF 0) with (S754_zero false).
  destruct (Prim2SF f) as [s|[|]| |[|] m e]; cbn; intros H;
    try reflexivity; contradiction.
Qed.

Lemma sum_real (l : list float) (acc : float) :
  Forall (fun x => JS.isFinite x = true) l ->
  realSF (Prim2SF acc) ->
  realSF (Prim2SF (fold_left (fun acc num => acc + num) l acc)).
Proof.
  intros Hl. revert acc. induction Hl as [|x l Hx _ IH]; intros acc Ha; cbn.
  - exact Ha.
  - apply IH. rewrite add_spec. apply SFadd_real; [exact Ha | now apply finite_SF].
Qed.

Lemma sum_nonneg (l : list float) (acc : float) :
  Forall (fun x => JS.isFinite x = true /\ nonnegSF (Prim2SF x)) l ->
  nonnegSF (Prim2SF acc) ->
  nonnegSF (Prim2SF (fold_left (fun acc num => acc + num) l acc)).
Proof.
  intros Hl. revert acc. induction Hl as [|x l [Hx Hn] _ IH]; intros acc Ha; cbn.
  - exact Ha.
  - apply IH. rewrite add_spec.
    apply SFadd_nonneg; [exact Ha | exact Hn | now apply finite_SF].
Qed.

Lemma filter_arrayLength {A : Type} (f : A -> bool) (l : list A) :
  arrayLength (length l) -> arrayLength (length (filter f l)).
Proof.
  unfold arrayLength. pose proof (filter_length_le f l). lia.
Qed.

Lemma average_real (numbers : list float) :
  arrayLength (length numbers) -> realSF (Prim2SF (calculateAverage numbers)).
Proof.
  intros Hlen. unfold calculateAverage.
  destruct (Nat.eqb (length numbers) 0); [exact I|].
  pose proof (filter_arrayLength validNumber numbers Hlen) as Hv.
  destruct (Nat.eqb_spec (length (filter validNumber numbers)) 0) as [|Hne];
    [exact I|].
  destruct (of_length_proper (length (filter validNumber numbers)))
    as (m & e & E); [lia | exact Hv |].
  rewrite div_spec, E. apply SFdiv_real; [|exact I].
  apply sum_real; [apply (filter_valid validNumber) | exact I].
Qed.

Lemma average_nonneg (numbers : list float) :
  arrayLength (length numbers) ->
  (forall x, In x numbers -> JS.isFinite x = true -> nonnegSF (Prim2SF x)) ->
  nonnegSF (Prim2SF (calculateAverage numbers)).
Proof.
  intros Hlen Hpos. unfold calculateAverage.
  destruct (Nat.eqb (length numbers) 0); [exact I|].
  pose proof (filter_arrayLength validNumber numbers Hlen) as Hv.
  destruct (Nat.eqb_spec (length (filter validNumber numbers)) 0) as [|Hne];
    [exact I|].
  destruct (of_length_proper (length (filter validNumber numbers)))
    as (m & e & E); [lia | exact Hv |].
  rewrite div_spec, E. apply SFdiv_nonneg.
  apply sum_nonneg; [|exact I].
  apply Forall_forall. intros x Hx. apply filter_In in Hx.
  destruct Hx as [Hin Hfin]. split; [exact Hfin | now apply Hpos].
Qed.

Lemma square_nonneg (d : float) :
  JS.isFinite (JS.Math_pow2 d) = true -> nonnegSF (Prim2SF (JS.Math_pow2 d)).
Proof.
  intros H. apply finite_SF in H. unfold JS.Math_pow2 in *.
  rewrite mul_spec in *.
  destruct (Prim2SF d) as [s|s| |s m e] eqn:E; try (apply SFmul_square; exact I).
  contradiction.
Qed.

Lemma deviation_nonneg (numbers : list float) :
  arrayLength (length numbers) ->
  nonnegSF (Prim2SF (calculateStandardDeviation numbers)).
Proof.
  intros Hlen. unfold calculateStandardDeviation.
  destruct (Nat.eqb (length numbers) 0); [exact I|].
  destruct (Nat.eqb (length (filter validNumber numbers)) 0); [exact I|].
  unfold JS.Math_sqrt. rewrite sqrt_spec. apply SFsqrt_nonneg.
  apply average_nonneg.
  - rewrite length_map. now apply filter_arrayLength.
  - intros x Hx Hfin. apply in_map_iff in Hx. destruct Hx as (num & <- & _).
    now apply square_nonneg.
Qed.

(** X16: [calculateAverage] never returns NaN, whatever the entries of
    the array are (NaN entries included). *)
Theorem average_never_nan (numbers : list float) :
  arrayLength (length numbers) ->
  is_nan (calculateAverage numbers) = false.
Proof. intros H. now apply real_not_nan, average_real. Qed.

Lemma average_never_nan_witness :
  is_nan (calculateAverage [nan; 0x1p1023; 0x1p1023; neg_infinity]) = false.
Proof.
  apply (average_never_nan [nan; 0x1p1023; 0x1p1023; neg_infinity]). reflexivity.
Defined.

(** X17: [calculateStandardDeviation] never returns NaN and never a
    negative number, whatever the entries of the array are. *)
Theorem deviation_never_nan_or_negative (numbers : list float) :
  arrayLength (length numbers) ->
  is_nan (calculateStandardDeviation numbers) = false /\
  (0 <=? calculateStandardDeviation numbers) = true.
Proof.
  intros H. pose proof (deviation_nonneg numbers H) as Hn. split.
  - now apply real_not_nan, nonneg_real.
  - now apply nonneg_leb.
Qed.

Lemma deviation_never_nan_or_negative_witness :
  is_nan (calculateStandardDeviation [nan; 0x1p1023; -0x1p1023; 3]) = false /\
  (0 <=? calculateStandardDeviation [nan; 0x1p1023; -0x1p1023; 3]) = true.
Proof.
  apply (deviation_never_nan_or_negative [nan; 0x1p1023; -0x1p1023; 3]).
  reflexivity.
Defined.

(** X18: [calculatePercentageChange] never returns NaN. *)
Theorem percentage_change_never_nan (current previous : float) :
  is_nan (calculatePercentageChange current previous) = false.
Proof.
  unfold calculatePercentageChange.
  destruct (JS.isFinite current) eqn:Hc; [|reflexivity].
  destruct (JS.isFinite previous) eqn:Hp; [|reflexivity].
  destruct (JS.strict_eq previous 0) eqn:Hz; [reflexivity|]. cbn [negb orb].
  apply real_not_nan. rewrite mul_spec, div_spec, sub_spec.
  apply SFmul_real; [|exact I].
  apply SFdiv_real; [|now apply proper_SF].
  apply SFsub_real; now apply finite_SF.
Qed.

(** X19: the percentage change from a value to itself is zero, for every
    number (0, NaN and the infinities included). *)
Theorem percentage_change_of_same (x : float) :
  JS.strict_eq (calculatePercentageChange x x) 0 = true.
Proof.
  unfold calculatePercentageChange.
  destruct (JS.isFinite x) eqn:Hf; [|reflexivity].
  destruct (JS.strict_eq x 0) eqn:Hz; [reflexivity|]. cbn [negb orb].
  pose proof (proper_SF x Hf Hz) as Hx.
  unfold JS.strict_eq. rewrite FloatAxioms.eqb_spec, mul_spec, div_spec, sub_spec.
  change (Prim2SF 0) with (S754_zero false).
  change (Prim2SF 100) with (S754_finite false 7036874417766400 (-46)).
  destruct (Prim2SF x) as [s|s| |s m e]; try contradiction.
  unfold SF64sub, SpecFloat.SFsub, SpecFloat.shl_align.
  rewrite Z.min_id.
  replace (IntDef.Z.sub e e) with 0%Z by (symmetry; apply Z.sub_diag).
  cbn [fst].
  replace (IntDef.Z.sub (SpecFloat.cond_Zopp s (Zpos m)) (SpecFloat.cond_Zopp s (Zpos m)))
    with 0%Z by (symmetry; apply Z.sub_diag).
  reflexivity.
Qed.

Lemma buildDeviations_values (P : float -> Prop) (a : JS.record (list float))
    (tickers : list string) :
  (forall t, P (calculateStandardDeviation (arrayOf (JS.get a t)))) ->
  forall k v, In (k, v) (buildDeviations a tickers) -> P v.
Proof.
  intros HP. unfold buildDeviations.
  assert (forall k v, In (k, v) (@nil (string * float)) -> P v) as Hacc by easy.
  revert Hacc. generalize (@nil (string * float)).
  induction tickers as [|t tickers IH]; intros acc Hacc; cbn [fold_left].
  - exact Hacc.
  - apply IH. apply set_values; [exact Hacc | apply HP].
Qed.

Lemma aligned_lengths (data : StockData) (common : list string)
    (alignedData : JS.record (list float)) :
  buildAligned data common (JS.keys data) = Some alignedData ->
  forall ticker v, In (ticker, v) alignedData -> length v <= length common.
Proof.
  unfold buildAligned.
  apply (buildAligned_values (fun v => length v <= length common)).
  - intros points. apply alignedPrices_length_le.
  - intros a [= <-] k v [].
Qed.

(** X20: every value of [standardDeviations] in the engine's result is a
    number that is neither NaN nor negative. *)
Theorem deviations_never_nan_or_negative (data : StockData) (r : CorrelationMatrix)
    (ticker : string) (v : float) :
  (forall t points, JS.get data t = Some points -> arrayLength (length points)) ->
  calculateCorrelationMatrix data = Some r ->
  JS.get (standardDeviations r) ticker = Some v ->
  is_nan v = false /\ (0 <=? v) = true.
Proof.
  intros Hlen Hr Hv.
  destruct (engine_cases data) as [H | (a & Hne & _ & Ha & H)];
    rewrite H in Hr; injection Hr as <-; cbn [standardDeviations emptyResult] in Hv.
  - discriminate.
  - apply get_In in Hv. revert Hv.
    apply (buildDeviations_values
             (fun v => is_nan v = false /\ (0 <=? v) = true) a (JS.keys data)).
    intros t.
    assert (arrayLength (length (arrayOf (JS.get a t)))) as Hl.
    { destruct (JS.get a t) as [vec|] eqn:G; [|reflexivity]. cbn [arrayOf].
      apply get_In in G. pose proof (aligned_lengths _ _ _ Ha t vec G) as Hle.
      destruct (JS.keys data) as [|t0 ks] eqn:K; [contradiction|].
      destruct (get_of_key data t0) as [points G0]; [rewrite K; now left|].
      pose proof (common_within_series data t0 points G0) as Hc.
      rewrite K in Hc. specialize (Hlen t0 points G0).
      unfold arrayLength in *. lia. }
    pose proof (deviation_nonneg _ Hl) as Hn. split.
    + now apply real_not_nan, nonneg_real.
    + now apply nonneg_leb.
Qed.

Lemma deviations_never_nan_or_negative_witness :
  is_nan (calculateStandardDeviation [200; 204; 202]) = false /\
  (0 <=? calculateStandardDeviation [200; 204; 202]) = true.
Proof.
  apply (deviations_never_nan_or_negative scenario
           (mkCorrelationMatrix
              [[1; 1]; [1; 1]]
              [("AAPL"%string, calculateStandardDeviation [100; 102; 101]);
               ("GOOGL"%string, calculateStandardDeviation [200; 204; 202])]
              3)
           "GOOGL"%string (calculateStandardDeviation [200; 204; 202])).
  - intros t points G. apply get_In in G.
    destruct G as [[= <- <-] | [[= <- <-] | []]]; reflexivity.
  - apply scenario_result.
  - reflexivity.
Defined.

(** X21: every average kept by the chart's [averages] memo is a number
    that is not NaN, even when the series holds NaN prices. *)
Theorem chart_averages_never_nan (data : StockData) (selectedStocks : list string)
    (ticker : string) (v : float) :
  (forall t points, JS.get data t = Some points -> arrayLength (length points)) ->
  JS.get (averages data selectedStocks) ticker = Some v ->
  is_nan v = false.
Proof.
  intros Hlen Hv. unfold averages in Hv. rewrite averages_from in Hv.
  destruct (JS.get data ticker) as [points|] eqn:G; [|discriminate].
  destruct (existsb (String.eqb ticker) selectedStocks); [|discriminate].
  injection Hv as <-. apply real_not_nan, average_real.
  rewrite length_map. now apply (Hlen ticker).
Qed.

Lemma chart_averages_never_nan_witness :
  is_nan (calculateAverage [nan; 1; infinity]) = false.
Proof.
  apply (chart_averages_never_nan withNaN ["A"]%string "A"%string
           (calculateAverage [nan; 1; infinity])).
  - intros t points G. apply get_In in G.
    destruct G as [[= <- <-] | []]; reflexivity.
  - reflexivity.
Defined.

(* ================================================================= *)
(** ** Chart preparation: which timestamps are plotted *)

Open Scope nat_scope.

Lemma multiple_offset (s i o : nat) :
  o < s -> (i + o) mod s = 0 -> (i mod s = 0 <-> o = 0).
Proof.
  intros Ho H. apply Nat.Div0.mod_divides in H. destruct H as [c Hc]. split.
  - intros Hi. apply Nat.Div0.mod_divides in Hi. destruct Hi as [c' Hc'].
    destruct (Nat.lt_trichotomy c c') as [L | [-> | L]]; [nia | lia |].
    assert (s * (c' + 1) <= s * c) by (apply Nat.mul_le_mono_l; lia). nia.
  - intros ->. apply Nat.Div0.mod_divides. exists c. lia.
Qed.

Lemma filter_index_nth (s : nat) (l : list string) (i o k : nat) :
  o < s -> (i + o) mod s = 0 ->
  nth_error (filter_index (fun index => Nat.eqb (index mod s) 0) i l) k
  = nth_error l (o + k * s).
Proof.
  revert i o k. induction l as [|x l IH]; intros i o k Ho H.
  - cbn. now rewrite !nth_error_nil.
  - cbn [filter_index]. pose proof (multiple_offset s i o Ho H) as M.
    destruct (Nat.eqb_spec (i mod s) 0) as [Hi | Hi].
    + apply M in Hi. subst o. destruct k as [|k]; [reflexivity|].
      cbn [nth_error]. rewrite (IH (S i) (s - 1) k).
      * replace (0 + S k * s) with (S (s - 1 + k * s)) by nia. reflexivity.
      * lia.
      * rewrite Nat.add_0_r in H. apply Nat.Div0.mod_divides in H.
        destruct H as [c Hc]. apply Nat.Div0.mod_divides. exists (c + 1). nia.
    + assert (o <> 0) as Hne by tauto.
      rewrite (IH (S i) (o - 1) k).
      * replace (o + k * s) with (S (o - 1 + k * s)) by lia. reflexivity.
      * lia.
      * replace (S i + (o - 1)) with (i + o) by lia. exact H.
Qed.

(** X22: the chart plots every [step]-th timestamp of the sorted union
    starting from the first one: the k-th plotted timestamp is the one at
    index k * step (so the latest timestamp is plotted only when its index
    is a multiple of the step). *)
Theorem chart_plots_every_step (data : StockData) (selectedStocks : list string)
    (isMobile isTablet : bool) (k : nat) :
  let sortedTimestamps := JS.sort (collectTimestamps data selectedStocks) in
  let step := samplingStep (length sortedTimestamps) (maxDataPoints isMobile isTablet) in
  nth_error (filteredTimestamps data selectedStocks isMobile isTablet) k
  = nth_error sortedTimestamps (k * step).
Proof.
  intros sortedTimestamps step. unfold filteredTimestamps, everyNth.
  fold sortedTimestamps. fold step.
  apply (filter_index_nth step sortedTimestamps 0 0 k).
  - unfold step, samplingStep. lia.
  - apply Nat.Div0.mod_0_l.
Qed.

Open Scope float_scope.

(* ================================================================= *)
(** ** The two alignment modes on complete data *)

Lemma scanUnion_as_lookup (points : list StockPrice) (union : list string) :
  (forall ts, In ts union -> exists p, findPoint points ts = Some p) ->
  scanUnion points union = map (lookupPrice points) union.
Proof.
  unfold scanUnion, lookupPrice.
  induction union as [|ts union IH]; intros H; cbn; [reflexivity|].
  destruct (H ts (or_introl eq_refl)) as [p ->]. cbn.
  now rewrite IH by (intros ts' Hts'; apply H; now right).
Qed.

(** X23: on complete data (every series has the same timestamps, each
    once, with finite prices, and there are at least two of them) the
    aligned vectors that the engine builds are exactly what
    [alignStockData] returns. *)
Theorem modes_agree_on_complete_data (data : StockData) :
  wellFormed data ->
  (forall ticker points, In (ticker, points) data ->
     NoDup (map timestamp points) /\
     Forall (fun p => JS.isFinite (price p) = true) points) ->
  (forall t1 p1 t2 p2 ts, In (t1, p1) data -> In (t2, p2) data ->
     In ts (map timestamp p1) -> In ts (map timestamp p2)) ->
  (2 <= length (commonTimestampsOf data (JS.keys data)))%nat ->
  buildAligned data (commonTimestampsOf data (JS.keys data)) (JS.keys data)
  = Some (alignStockData data).
Proof.
  intros WF Hclean Hsame Htwo.
  assert (forall ticker points ts,
            In (ticker, points) data ->
            In ts (collectTimestamps data (JS.keys data)) ->
            finiteAt points ts) as Hfin.
  { intros ticker points ts Hin Hts.
    apply collectTimestamps_In in Hts.
    destruct Hts as (t0 & pts0 & p0 & _ & G0 & Hp0 & E0).
    apply get_In in G0.
    assert (In ts (map timestamp points)) as Hs.
    { apply (Hsame t0 pts0 ticker points ts G0 Hin). rewrite <- E0. now apply in_map. }
    apply in_map_iff in Hs. destruct Hs as (p & E & Hp).
    exists p. repeat split; [assumption | assumption |].
    destruct (Hclean ticker points Hin) as [_ Hf].
    rewrite Forall_forall in Hf. now apply Hf. }
  assert (commonTimestampsOf data (JS.keys data)
          = JS.sort (collectTimestamps data (JS.keys data))) as EC.
  { unfold commonTimestampsOf. f_equal. apply filter_all, Forall_forall.
    intros ts Hts. apply isCommon_spec. intros ticker Hk.
    destruct (get_of_key data ticker Hk) as [points G].
    exists points. split; [exact G|].
    apply (Hfin ticker); [now apply get_In | exact Hts]. }
  rewrite EC in *. set (union := JS.sort _) in *.
  rewrite buildAligned_entries by exact WF.
  rewrite (alignStockData_as_filter data WF). fold union.
  assert (forall kv, In kv data ->
            alignedPrices (snd kv) union = scanUnion (snd kv) union /\
            length (scanUnion (snd kv) union) = length union) as Hvec.
  { intros [ticker points] Hin. cbn [snd].
    assert (forall ts, In ts union -> finiteAt points ts) as Hf.
    { intros ts Hts. apply (Hfin ticker); [exact Hin|].
      unfold union in Hts. now apply (proj1 (sort_In _ _)) in Hts. }
    assert (scanUnion points union = map (lookupPrice points) union) as ES.
    { apply scanUnion_as_lookup. intros ts Hts.
      destruct (lookup_never_fails points ts (Hf ts Hts)) as (p & F & _). eauto. }
    split.
    - rewrite ES. apply alignedPrices_full_length; [|exact Hf].
      now destruct (Hclean ticker points Hin).
    - rewrite ES. apply length_map. }
  rewrite filter_all.
  - apply f_equal. apply map_ext_in. intros kv Hin.
    destruct (Hvec kv Hin) as [-> _]. reflexivity.
  - apply Forall_forall. intros kv Hkv. apply in_map_iff in Hkv.
    destruct Hkv as (kv0 & <- & Hin). unfold longEnough. cbn [snd].
    destruct (Hvec kv0 Hin) as [_ ->]. now apply Nat.leb_le.
Qed.

Lemma modes_agree_on_complete_data_witness :
  buildAligned scenario (commonTimestampsOf scenario (JS.keys scenario))
               (JS.keys scenario)
  = Some (alignStockData scenario).
Proof.
  apply (modes_agree_on_complete_data scenario).
  - distinct_strings.
  - intros ticker points [[= <- <-] | [[= <- <-] | []]];
      (split; [distinct_strings | repeat constructor]).
  - intros t1 p1 t2 p2 ts [[= <- <-] | [[= <- <-] | []]]
                           [[= <- <-] | [[= <- <-] | []]]; cbn; tauto.
  - vm_compute. lia.
Defined.

(* ================================================================= *)
(** ** The chart's own average *)

Lemma nan_SF (f : float) : is_nan f = true -> Prim2SF f = S754_nan.
Proof. intros H. unfold Prim2SF. now rewrite H. Qed.

Lemma SF_nan (f : float) : Prim2SF f = S754_nan -> is_nan f = true.
Proof.
  intros H. destruct (is_nan f) eqn:E; [reflexivity|].
  apply is_nan_false in E. contradiction.
Qed.

Lemma sum_keeps_nan (l : list float) (acc : float) :
  is_nan acc = true \/ Exists (fun x => is_nan x = true) l ->
  is_nan (fold_left (fun acc num => acc + num) l acc) = true.
Proof.
  revert acc. induction l as [|x l IH]; intros acc H; cbn.
  - destruct H as [H | H]; [exact H | inversion H].
  - apply IH.
    destruct H as [H | H].
    + left. apply SF_nan. rewrite add_spec, (nan_SF acc H). reflexivity.
    + inversion H as [? ? Hx | ? ? Hl]; subst; [|now right].
      left. apply SF_nan. rewrite add_spec, (nan_SF x Hx).
      now destruct (Prim2SF acc).
Qed.

(** X24: when the array holds a NaN, the helper that the stand-alone
    StockChart declares for itself returns NaN (while [calculateAverage]
    of utils/calculations.ts never does). *)
Theorem localAverage_propagates_nan (numbers : list float) :
  Exists (fun x => is_nan x = true) numbers ->
  is_nan (localAverage numbers) = true.
Proof.
  intros H. unfold localAverage.
  destruct numbers as [|n0 numbers]; [inversion H|]. cbn [length Nat.eqb].
  apply SF_nan. rewrite div_spec. unfold reduce_sum.
  rewrite (nan_SF _ (sum_keeps_nan (n0 :: numbers) 0 (or_intror H))).
  reflexivity.
Qed.

Lemma localAverage_propagates_nan_witness :
  is_nan (localAverage [1; nan; 3]) = true.
Proof.
  apply (localAverage_propagates_nan [1; nan; 3]).
  right. left. reflexivity.
Defined.
